(** * K-Medoids clustering engine: a shallow embedding and its properties

    The engine of [kmedoids.tsx] (class [KMedoids]) is embedded function by
    function.  Conventions of the embedding:

    - a JavaScript [number] that the engine computes with is a [num]: an exact
      rational, one of the two infinities, or NaN ([undefined] behaves as NaN
      in every comparison and sum the engine performs).  The entries of the
      distance matrix and the probability window are rationals.  Sums,
      quotients and products are the exact ones: the rounding and the
      overflow of double arithmetic are not part of the embedding, so the
      properties speak of orderings, shapes and signs, not of the digits of
      a cost;
    - point indices and the iteration counter are integers ([Z]), sizes and
      the count of assigned points are naturals;
    - a [Set<number>] is the list of its members in insertion order (the order
      [forEach] and the spread operator visit them in), a [Map] is the list of
      its entries in insertion order;
    - [while] loops take a fuel argument and answer [OutOfFuel] when it runs
      out while the loop condition still holds; reading a property of
      [undefined] answers [TypeError];
    - the ambient random generator behind lodash's [random] is an explicit
      sequence of raw draws. *)

From Stdlib Require Import String.
From Stdlib Require Import List ZArith QArith Qround Lia Bool Permutation Sorted.
Import ListNotations.

Local Open Scope Z_scope.

(** ** Numbers *)

Inductive num : Type :=
| Fin (q : Q)
| PInf
| NInf
| NaN.

Definition Qltb (x y : Q) : bool := negb (Qle_bool y x).

(** [x < y] on JavaScript numbers: false as soon as one side is NaN. *)
Definition num_ltb (x y : num) : bool :=
  match x, y with
  | Fin a, Fin b => Qltb a b
  | Fin _, PInf => true
  | NInf, Fin _ => true
  | NInf, PInf => true
  | _, _ => false
  end.

Definition num_add (x y : num) : num :=
  match x, y with
  | NaN, _ | _, NaN => NaN
  | Fin a, Fin b => Fin (a + b)
  | PInf, NInf | NInf, PInf => NaN
  | PInf, _ | _, PInf => PInf
  | NInf, _ | _, NInf => NInf
  end.

Definition num_opp (x : num) : num :=
  match x with
  | Fin a => Fin (- a)
  | PInf => NInf
  | NInf => PInf
  | NaN => NaN
  end.

Definition num_sub (x y : num) : num := num_add x (num_opp y).

(** [x / n] for a collection size [n]. *)
Definition num_div (x : num) (n : nat) : num :=
  match x, n with
  | Fin a, O => if Qltb 0 a then PInf else if Qltb a 0 then NInf else NaN
  | Fin a, _ => Fin (a / inject_Z (Z.of_nat n))
  | _, _ => x
  end.

(** lodash [sum]: the members added from left to right, [0] for no member. *)
Definition sum (l : list num) : num := fold_left num_add l (Fin 0).

Definition Math_floor (x : Q) : Z := Qfloor x.

(** [Math.round] rounds to the nearest integer, halves upwards. *)
Definition Math_round (x : Q) : Z := Qfloor (x + (1 # 2)).

(** lodash [random(lower, upper)] on integers: the bounds are swapped when
    given out of order, and the result is an integer between them, both
    included.  [raw] is what the generator drew. *)
Definition random (lower upper : Z) (raw : nat) : Z :=
  let lo := Z.min lower upper in
  let hi := Z.max lower upper in
  lo + Z.of_nat raw mod (hi - lo + 1).

(** ** Outcomes *)

Inductive outcome (A : Type) : Type :=
| Ok (a : A)
| TypeError
| OutOfFuel.

Arguments Ok {A} a.
Arguments TypeError {A}.
Arguments OutOfFuel {A}.

Definition bind {A B : Type} (c : outcome A) (k : A -> outcome B) : outcome B :=
  match c with
  | Ok a => k a
  | TypeError => TypeError
  | OutOfFuel => OutOfFuel
  end.

Notation "x <- c1 ;; c2" := (bind c1 (fun x => c2))
  (at level 61, c1 at next level, right associativity).

(** [collection.forEach(body)] with the state the callback mutates threaded
    through. *)
Fixpoint forEach {S A : Type} (l : list A) (body : S -> A -> outcome S) (s : S)
  : outcome S :=
  match l with
  | [] => Ok s
  | x :: l' => s' <- body s x ;; forEach l' body s'
  end.

(** ** Arrays, sets and maps *)

Definition array_get {A : Type} (a : list A) (i : Z) : option A :=
  if i <? 0 then None else nth_error a (Z.to_nat i).

Definition range (n : nat) : list Z := map Z.of_nat (seq 0 n).

Definition set_has (s : list Z) (x : Z) : bool := existsb (Z.eqb x) s.

Definition set_add (x : Z) (s : list Z) : list Z :=
  if set_has s x then s else s ++ [x].

Definition set_delete (x : Z) (s : list Z) : list Z :=
  filter (fun y => negb (y =? x)) s.

Definition size {A : Type} (s : list A) : nat := length s.

Fixpoint map_get {V : Type} (m : list (Z * V)) (k : Z) : option V :=
  match m with
  | [] => None
  | (k', v) :: m' => if k' =? k then Some v else map_get m' k
  end.

Fixpoint map_set {V : Type} (k : Z) (v : V) (m : list (Z * V)) : list (Z * V) :=
  match m with
  | [] => [(k, v)]
  | (k', v') :: m' => if k' =? k then (k, v) :: m' else (k', v') :: map_set k v m'
  end.

Definition keys {V : Type} (m : list (Z * V)) : list Z := map fst m.

(** ** The engine *)

Definition Clustering : Type := list (Z * list Z).

Record KMedoids : Type := mkKMedoids {
  distanceMatrix : list (list Q);
  nClusters : Z;
  nPoints : nat;
  nRange : list Z;
  startProb : Q;
  endProb : Q;
  clusters : option Clustering;
  medoids : list Z
}.

Inductive exn : Type := Error (message : string).

Definition constructor (distanceMatrix : list (list Q)) (nClusters : Z)
  (startProb endProb : Q) : exn + KMedoids :=
  if negb (Qle_bool 0 startProb && Qltb startProb endProb && Qle_bool endProb 1)
  then inl (Error "startProb must be smaller than endProb.")
  else if negb (nClusters <? Z.of_nat (length distanceMatrix))
  then inl (Error "number of clusters must not exceed number of data points.")
  else inr {| distanceMatrix := distanceMatrix;
              nClusters := nClusters;
              nPoints := length distanceMatrix;
              nRange := range (length distanceMatrix);
              startProb := startProb;
              endProb := endProb;
              clusters := None;
              medoids := [] |}.

Definition with_medoids (this : KMedoids) (m : list Z) : KMedoids :=
  {| distanceMatrix := distanceMatrix this;
     nClusters := nClusters this;
     nPoints := nPoints this;
     nRange := nRange this;
     startProb := startProb this;
     endProb := endProb this;
     clusters := clusters this;
     medoids := m |}.

Definition with_clusters (this : KMedoids) (c : option Clustering) : KMedoids :=
  {| distanceMatrix := distanceMatrix this;
     nClusters := nClusters this;
     nPoints := nPoints this;
     nRange := nRange this;
     startProb := startProb this;
     endProb := endProb this;
     clusters := c;
     medoids := medoids this |}.

(** [distanceMatrix[point1][point2]].  An index past the end of a row reads
    [undefined], which is NaN to every later [<] and [+].  The engine indexes
    rows by members of [nRange] only, so a row is never missing when the
    other methods call this one. *)
Definition getDistance (this : KMedoids) (point1 point2 : Z) : num :=
  match array_get (distanceMatrix this) point1 with
  | Some row =>
      match array_get row point2 with
      | Some d => Fin d
      | None => NaN
      end
  | None => NaN
  end.

Record ClosestMedoid : Type := mkClosestMedoid {
  cm_medoid : Z;
  cm_distance : num
}.

Definition getClosestMedoid (this : KMedoids) (medoids : list Z) (point : Z)
  : ClosestMedoid :=
  fold_left
    (fun closest medoid =>
       let distance := getDistance this point medoid in
       if num_ltb distance (cm_distance closest)
       then {| cm_medoid := medoid; cm_distance := distance |}
       else closest)
    medoids {| cm_medoid := -1; cm_distance := PInf |}.

Record ClosestPoint : Type := mkClosestPoint {
  cp_point : option Z;
  cp_distance : num
}.

Definition getClosestPoint (this : KMedoids) (medoid : Z) (exception : list Z)
  : ClosestPoint :=
  let points := filter (fun x => negb (set_has exception x)) (nRange this) in
  fold_left
    (fun closest point =>
       let distance := getDistance this point medoid in
       if num_ltb distance (cp_distance closest)
       then {| cp_point := Some point; cp_distance := distance |}
       else closest)
    points {| cp_point := None; cp_distance := PInf |}.

Definition getNonMedoids (this : KMedoids) (medoids : list Z) : list Z :=
  filter (fun x => negb (set_has medoids x)) (nRange this).

(** *** Seeding *)

Record PointDistance : Type := mkPointDistance {
  pd_point : Z;
  pd_distance : num
}.

(** lodash [sortBy(_, 'distance')]: ascending and stable. *)
Fixpoint sort_insert (x : PointDistance) (l : list PointDistance)
  : list PointDistance :=
  match l with
  | [] => [x]
  | y :: l' =>
      if num_ltb (pd_distance y) (pd_distance x)
      then y :: sort_insert x l'
      else x :: l
  end.

Fixpoint sortBy_distance (l : list PointDistance) : list PointDistance :=
  match l with
  | [] => []
  | x :: l' => sort_insert x (sortBy_distance l')
  end.

Definition seeding_distances (this : KMedoids) (medoids : list Z)
  : list PointDistance :=
  map (fun point =>
         {| pd_point := point;
            pd_distance := cm_distance (getClosestMedoid this medoids point) |})
      (filter (fun point => negb (set_has medoids point)) (nRange this)).

Definition startIdx_of (this : KMedoids) (count : nat) : Z :=
  Math_floor (startProb this * inject_Z (Z.of_nat count)).

Definition endIdx_of (this : KMedoids) (count : nat) : Z :=
  Math_round (endProb this * inject_Z (Z.of_nat count - 1)).

(** The [while] loop of [initializeMedoids]; [draw] counts the calls of
    [random] made so far. *)
Fixpoint initializeMedoids_while (fuel : nat) (rand : nat -> nat)
  (this : KMedoids) (draw : nat) (medoids : list Z) : outcome (list Z) :=
  if Z.of_nat (size medoids) =? nClusters this then Ok medoids
  else
    match fuel with
    | O => OutOfFuel
    | S fuel' =>
        let distances := seeding_distances this medoids in
        let distancesSorted := sortBy_distance distances in
        let startIdx := startIdx_of this (length distances) in
        let endIdx := endIdx_of this (length distances) in
        match array_get distancesSorted (random startIdx endIdx (rand draw)) with
        | None => TypeError
        | Some picked =>
            initializeMedoids_while fuel' rand this (S draw)
              (set_add (pd_point picked) medoids)
        end
    end.

Definition initializeMedoids (fuel : nat) (rand : nat -> nat) (this : KMedoids)
  : outcome (list Z) :=
  initializeMedoids_while fuel rand this 1%nat
    (set_add (random 0 (Z.of_nat (nPoints this) - 1) (rand 0%nat)) []).

(** *** Assignment and cost *)

Record AssocState : Type := mkAssocState {
  as_clusters : Clustering;
  as_clustersCosts : list (Z * num);
  as_alreadyAssociatedPoints : list Z;
  as_associatedPoints : nat
}.

Definition assoc_init (medoids : list Z) : AssocState :=
  fold_left
    (fun st medoid =>
       {| as_clusters := map_set medoid [medoid] (as_clusters st);
          as_clustersCosts := map_set medoid (Fin 0) (as_clustersCosts st);
          as_alreadyAssociatedPoints := as_alreadyAssociatedPoints st;
          as_associatedPoints := as_associatedPoints st |})
    medoids
    {| as_clusters := [];
       as_clustersCosts := [];
       as_alreadyAssociatedPoints := medoids;
       as_associatedPoints := size medoids |}.

Definition cost_get (costs : list (Z * num)) (medoid : Z) : num :=
  match map_get costs medoid with
  | Some c => c
  | None => NaN
  end.

(** The callback of the [forEach] inside the [while] loop. *)
Definition assoc_body (this : KMedoids) (st : AssocState) (medoid : Z)
  : outcome AssocState :=
  let closest := getClosestPoint this medoid (as_alreadyAssociatedPoints st) in
  match cp_point closest with
  | None => Ok st
  | Some point =>
      match map_get (as_clusters st) medoid with
      | None => TypeError
      | Some members =>
          Ok {| as_clusters :=
                  map_set medoid (set_add point members) (as_clusters st);
                as_clustersCosts :=
                  map_set medoid
                    (num_add (cost_get (as_clustersCosts st) medoid)
                             (cp_distance closest))
                    (as_clustersCosts st);
                as_alreadyAssociatedPoints :=
                  set_add point (as_alreadyAssociatedPoints st);
                as_associatedPoints := S (as_associatedPoints st) |}
      end
  end.

Fixpoint assoc_while (fuel : nat) (this : KMedoids) (medoids : list Z)
  (st : AssocState) : outcome AssocState :=
  if Nat.eqb (as_associatedPoints st) (nPoints this) then Ok st
  else
    match fuel with
    | O => OutOfFuel
    | S fuel' =>
        st' <- forEach medoids (assoc_body this) st ;;
        assoc_while fuel' this medoids st'
    end.

Record Association : Type := mkAssociation {
  ar_clusters : Clustering;
  configurationCost : num
}.

Definition cluster_mean (st : AssocState) (medoid : Z) : outcome num :=
  match map_get (as_clusters st) medoid with
  | None => TypeError
  | Some members => Ok (num_div (cost_get (as_clustersCosts st) medoid) (size members))
  end.

Fixpoint map_outcome {A B : Type} (f : A -> outcome B) (l : list A)
  : outcome (list B) :=
  match l with
  | [] => Ok []
  | x :: l' => y <- f x ;; ys <- map_outcome f l' ;; Ok (y :: ys)
  end.

Definition associateMedoidsToClosestPoint (fuel : nat) (this : KMedoids)
  (medoids : list Z) : outcome Association :=
  st <- assoc_while fuel this medoids (assoc_init medoids) ;;
  means <- map_outcome (cluster_mean st) (keys (as_clusters st)) ;;
  Ok {| ar_clusters := as_clusters st; configurationCost := sum means |}.

(** *** Refinement *)

Record RunState : Type := mkRunState {
  this_ : KMedoids;
  currentCost : num;
  costChange : num
}.

(** The callback of the inner [forEach] of [run]. *)
Definition swap_body (fuel : nat) (medoid : Z) (st : RunState) (nonMedoid : Z)
  : outcome RunState :=
  let newMedoids := set_add nonMedoid (set_delete medoid (medoids (this_ st))) in
  r <- associateMedoidsToClosestPoint fuel (this_ st) newMedoids ;;
  if num_ltb (configurationCost r) (currentCost st)
  then Ok {| this_ := with_clusters (with_medoids (this_ st) newMedoids)
                                    (Some (ar_clusters r));
             currentCost := configurationCost r;
             costChange := num_sub (currentCost st) (configurationCost r) |}
  else Ok st.

(** The callback of the outer [forEach] of [run]. *)
Definition medoid_body (fuel : nat) (st : RunState) (medoid : Z)
  : outcome RunState :=
  forEach (getNonMedoids (this_ st) (medoids (this_ st)))
          (swap_body fuel medoid) st.

(** One pass of the [while] loop of [run], after [costChange = 0]. *)
Definition run_pass (fuel : nat) (st : RunState) : outcome RunState :=
  forEach (medoids (this_ st)) (medoid_body fuel) st.

Definition reset_costChange (st : RunState) : RunState :=
  {| this_ := this_ st; currentCost := currentCost st; costChange := Fin 0 |}.

Fixpoint run_while (passes : nat) (fuel : nat) (maxIterations : Z)
  (tolerance : Q) (st : RunState) (iteration : Z) : outcome (RunState * Z) :=
  if num_ltb (Fin tolerance) (costChange st) && (iteration <? maxIterations)
  then
    match passes with
    | O => OutOfFuel
    | S passes' =>
        st' <- run_pass fuel (reset_costChange st) ;;
        run_while passes' fuel maxIterations tolerance st' (iteration + 1)
    end
  else Ok (st, iteration).

(** [run] up to the end of its [while] loop: the engine, the local variables
    and the iteration counter. *)
Definition run_state (fuel : nat) (rand : nat -> nat) (this : KMedoids)
  (maxIterations : Z) (tolerance : Q) : outcome (RunState * Z) :=
  m <- initializeMedoids fuel rand this ;;
  let this1 := with_medoids this m in
  r <- associateMedoidsToClosestPoint fuel this1 (medoids this1) ;;
  run_while fuel fuel maxIterations tolerance
    {| this_ := this1; currentCost := configurationCost r; costChange := PInf |}
    0.

(** [run] returns nothing; its effect is the engine it leaves behind. *)
Definition run (fuel : nat) (rand : nat -> nat) (this : KMedoids)
  (maxIterations : Z) (tolerance : Q) : outcome KMedoids :=
  res <- run_state fuel rand this maxIterations tolerance ;;
  Ok (this_ (fst res)).

(** ** The demonstration of [App.tsx] *)

Definition line5 : list (list Q) :=
  map (map inject_Z)
    [[0; 1; 2; 3; 4];
     [1; 0; 1; 2; 3];
     [2; 1; 0; 1; 2];
     [3; 2; 1; 0; 1];
     [4; 3; 2; 1; 0]].

Definition km5 : KMedoids :=
  mkKMedoids line5 2 5 (range 5) (90 # 100) (99 # 100) None [].

Definition zero_draws : nat -> nat := fun _ => 0%nat.

(** Same matrix, with the widest seeding window the constructor accepts. *)
Definition km5_wide : KMedoids :=
  mkKMedoids line5 2 5 (range 5) 0 1 None [].

(** The state in which [run] enters its loop on [km5_wide] when every draw
    is [0], and the state in which it leaves it after at most ten passes. *)
Definition wide_start : RunState :=
  Eval vm_compute in
    match run_state 5 zero_draws km5_wide 0 (1 # 100) with
    | Ok (st, _) => st
    | _ => {| this_ := km5_wide; currentCost := NaN; costChange := NaN |}
    end.

Definition wide_end : RunState :=
  Eval vm_compute in
    match run_while 5 5 10 (1 # 100) wide_start 0 with
    | Ok (st, _) => st
    | _ => wide_start
    end.

(** ** Default arguments and the caller *)

(** [new KMedoids(distanceMatrix, nClusters = 2, startProb = 0.90,
    endProb = 0.99)]: an argument left out takes its default. *)
Definition new_KMedoids (distanceMatrix : list (list Q)) (nClusters : option Z)
  (startProb endProb : option Q) : exn + KMedoids :=
  constructor distanceMatrix
    (match nClusters with Some k => k | None => 2 end)
    (match startProb with Some p => p | None => 90 # 100 end)
    (match endProb with Some p => p | None => 99 # 100 end).

(** [run(maxIterations = 10, tolerance = 0.01)]. *)
Definition run_with_defaults (fuel : nat) (rand : nat -> nat) (this : KMedoids)
  (maxIterations : option Z) (tolerance : option Q) : outcome KMedoids :=
  run fuel rand this
    (match maxIterations with Some m => m | None => 10 end)
    (match tolerance with Some t => t | None => 1 # 100 end).

(** What [App] does with the engine: it builds it on the five-point matrix
    with two clusters, runs it with the defaults, and logs the medoids and
    the clusters.  The result is the pair it logs; an error of the
    constructor is on the left. *)
Definition App (fuel : nat) (rand : nat -> nat)
  : exn + outcome (list Z * option Clustering) :=
  match new_KMedoids line5 (Some 2) None None with
  | inl err => inl err
  | inr km =>
      inr (e <- run_with_defaults fuel rand km None None ;;
           Ok (medoids e, clusters e))
  end.

(** ** Notions the properties are stated with *)

(** [x <= y] for recorded costs: the same value, or a strictly lower one. *)
Definition num_le (x y : num) : Prop := x = y \/ num_ltb x y = true.

(** The engine's matrix is square over its [nPoints] points, and [nRange]
    lists them: what the constructor establishes from an n-by-n matrix. *)
Record square_engine (this : KMedoids) : Prop := mkSquare {
  sq_points : nPoints this = length (distanceMatrix this);
  sq_range : nRange this = range (nPoints this);
  sq_rows : Forall (fun row => length row = nPoints this) (distanceMatrix this)
}.

(** A medoid set as the engine handles them: distinct point indices. *)
Definition medoid_set (this : KMedoids) (medoids : list Z) : Prop :=
  NoDup medoids /\ incl medoids (nRange this).

(** The total of the distances from the points of [assigned] to [medoid],
    added in the order of the list. *)
Definition distance_total (this : KMedoids) (medoid : Z) (assigned : list Z) : num :=
  sum (map (fun point => getDistance this point medoid) assigned).



(** The state of the assignment loop seen as groups: each medoid with the
    points assigned to it so far, in the order they were assigned. *)
Definition group_cluster (g : Z * list Z) : Z * list Z := (fst g, fst g :: snd g).

Definition group_cost (this : KMedoids) (g : Z * list Z) : Z * num :=
  (fst g, distance_total this (fst g) (snd g)).

Record assoc_inv (this : KMedoids) (medoids : list Z) (groups : list (Z * list Z))
  (st : AssocState) : Prop := mkAssocInv {
  ai_clusters : as_clusters st = map group_cluster groups;
  ai_costs : as_clustersCosts st = map (group_cost this) groups;
  ai_keys : map fst groups = medoids;
  ai_perm : Permutation (as_alreadyAssociatedPoints st)
                        (medoids ++ concat (map snd groups));
  ai_nodup : NoDup (as_alreadyAssociatedPoints st);
  ai_range : incl (as_alreadyAssociatedPoints st) (nRange this);
  ai_count : as_associatedPoints st = length (as_alreadyAssociatedPoints st)
}.

(** The callback of the scan of [getClosestPoint], and what the scan holds
    at any time: nothing yet, at distance [Infinity], or one of the points
    visited, at its distance to the medoid. *)
Definition closer_point (this : KMedoids) (medoid : Z) (closest : ClosestPoint)
  (point : Z) : ClosestPoint :=
  let distance := getDistance this point medoid in
  if num_ltb distance (cp_distance closest)
  then {| cp_point := Some point; cp_distance := distance |}
  else closest.

Definition scanned (this : KMedoids) (medoid : Z) (visited : list Z)
  (closest : ClosestPoint) : Prop :=
  (cp_point closest = None /\ cp_distance closest = PInf) \/
  (exists p, cp_point closest = Some p /\ In p visited /\
             cp_distance closest = getDistance this p medoid).

(** What every state of the refinement loop satisfies: the engine's matrix
    is square, its point range and count are the ones the loop started with,
    and its current medoids are a non-empty set of distinct points. *)
Definition refining (n : nat) (points : list Z) (st : RunState) : Prop :=
  square_engine (this_ st) /\
  nPoints (this_ st) = n /\ nRange (this_ st) = points /\
  medoids (this_ st) <> [] /\ medoid_set (this_ st) (medoids (this_ st)).

(** The steps the refinement loop is made of: resetting [costChange] at the
    start of a pass, and evaluating one candidate swap. *)
Inductive cost_steps (fuel : nat) : RunState -> RunState -> Prop :=
| steps_done (st : RunState) : cost_steps fuel st st
| steps_reset (st st' : RunState) :
    cost_steps fuel (reset_costChange st) st' -> cost_steps fuel st st'
| steps_swap (st st1 st' : RunState) (medoid nonMedoid : Z) :
    swap_body fuel medoid st nonMedoid = Ok st1 ->
    cost_steps fuel st1 st' -> cost_steps fuel st st'.

(** The local cost and the [clusters] field agree with the current medoids:
    the cost is the one the assignment gives for them, and [clusters], once
    set, is their clustering. *)
Definition consistent (fuel : nat) (st : RunState) : Prop :=
  exists r,
    associateMedoidsToClosestPoint fuel (this_ st) (medoids (this_ st)) = Ok r /\
    configurationCost r = currentCost st /\
    (clusters (this_ st) = None \/ clusters (this_ st) = Some (ar_clusters r)).

(** * Properties *)

(** ** Numbers *)

Lemma Qltb_lt (x y : Q) : Qltb x y = true <-> (x < y)%Q.
Proof.
  unfold Qltb. rewrite negb_true_iff. split.
  - intros H. apply Qnot_le_lt. intros Hle.
    apply Qle_bool_iff in Hle. congruence.
  - intros H. destruct (Qle_bool y x) eqn:E; [|reflexivity].
    apply Qle_bool_iff in E. exfalso. exact (Qlt_not_le _ _ H E).
Qed.

Lemma Qltb_ge (x y : Q) : Qltb x y = false <-> (y <= x)%Q.
Proof.
  unfold Qltb. rewrite negb_false_iff. apply Qle_bool_iff.
Qed.

Lemma num_ltb_trans (x y z : num) :
  num_ltb x y = true -> num_ltb y z = true -> num_ltb x z = true.
Proof.
  destruct x, y, z; simpl; try congruence.
  rewrite !Qltb_lt. apply Qlt_trans.
Qed.

Lemma num_ltb_irrefl (x : num) : num_ltb x x = false.
Proof.
  destruct x; simpl; try reflexivity.
  apply Qltb_ge, Qle_refl.
Qed.

Lemma num_le_refl (x : num) : num_le x x.
Proof. left; reflexivity. Qed.

Lemma num_le_trans (x y z : num) : num_le x y -> num_le y z -> num_le x z.
Proof.
  intros [-> | Hxy] [-> | Hyz]; unfold num_le; auto.
  right. eapply num_ltb_trans; eauto.
Qed.

(** ** Outcomes and [forEach] *)

Lemma bind_Ok {A B : Type} (c : outcome A) (k : A -> outcome B) (b : B) :
  bind c k = Ok b -> exists a, c = Ok a /\ k a = Ok b.
Proof.
  destruct c; simpl; intros H; try discriminate. eauto.
Qed.

(** A callback that succeeds and keeps [P] on the members of [l], moving the
    state along [R], makes [forEach] do the same. *)
Lemma forEach_total {S A : Type} (P : S -> Prop) (R : S -> S -> Prop)
  (l : list A) (body : S -> A -> outcome S) :
  (forall s, R s s) ->
  (forall s1 s2 s3, R s1 s2 -> R s2 s3 -> R s1 s3) ->
  (forall s x, In x l -> P s -> exists s', body s x = Ok s' /\ P s' /\ R s s') ->
  forall s, P s -> exists s', forEach l body s = Ok s' /\ P s' /\ R s s'.
Proof.
  intros Hrefl Htrans. induction l as [|x l IH]; intros Hbody s Hs; simpl.
  - eauto.
  - destruct (Hbody s x (or_introl eq_refl) Hs) as (s1 & E1 & P1 & R1).
    rewrite E1. simpl.
    destruct (IH (fun s y Hy => Hbody s y (or_intror Hy)) s1 P1)
      as (s2 & E2 & P2 & R2).
    exists s2. eauto.
Qed.

(** Whatever [forEach] returns is related to its start by any preorder the
    callback respects. *)
Lemma forEach_partial {S A : Type} (R : S -> S -> Prop)
  (l : list A) (body : S -> A -> outcome S) :
  (forall s, R s s) ->
  (forall s1 s2 s3, R s1 s2 -> R s2 s3 -> R s1 s3) ->
  (forall s x s', body s x = Ok s' -> R s s') ->
  forall s s', forEach l body s = Ok s' -> R s s'.
Proof.
  intros Hrefl Htrans Hbody. induction l as [|x l IH]; intros s s' H; simpl in H.
  - inversion H; subst. apply Hrefl.
  - apply bind_Ok in H. destruct H as (s1 & E1 & E2).
    eapply Htrans; [eapply Hbody; eassumption | apply IH; assumption].
Qed.

(** ** Sets and ranges *)

Lemma set_has_In (s : list Z) (x : Z) : set_has s x = true <-> In x s.
Proof.
  unfold set_has. rewrite existsb_exists. split.
  - intros (y & Hy & E). apply Z.eqb_eq in E. subst. exact Hy.
  - intros H. exists x. split; [exact H | apply Z.eqb_refl].
Qed.

Lemma set_has_not_In (s : list Z) (x : Z) : set_has s x = false <-> ~ In x s.
Proof.
  rewrite <- set_has_In. destruct (set_has s x); split; congruence.
Qed.

Lemma set_add_fresh (x : Z) (s : list Z) : ~ In x s -> set_add x s = s ++ [x].
Proof.
  intros H. unfold set_add. apply set_has_not_In in H. rewrite H. reflexivity.
Qed.

Lemma set_add_In (x y : Z) (s : list Z) : In y (set_add x s) <-> y = x \/ In y s.
Proof.
  unfold set_add. destruct (set_has s x) eqn:E.
  - apply set_has_In in E. split; [auto | intros [-> | H]; auto].
  - rewrite in_app_iff. simpl. split; intros H; intuition congruence.
Qed.

Lemma NoDup_snoc (x : Z) (s : list Z) : NoDup s -> ~ In x s -> NoDup (s ++ [x]).
Proof.
  intros Hs Hx. apply NoDup_app; [exact Hs | repeat constructor; simpl; tauto |].
  intros a Ha [<- | []]. contradiction.
Qed.

Lemma set_add_NoDup (x : Z) (s : list Z) : NoDup s -> NoDup (set_add x s).
Proof.
  intros Hs. unfold set_add. destruct (set_has s x) eqn:E; [exact Hs|].
  apply NoDup_snoc; [exact Hs | apply set_has_not_In; exact E].
Qed.

Lemma set_delete_In (x y : Z) (s : list Z) :
  In y (set_delete x s) <-> In y s /\ y <> x.
Proof.
  unfold set_delete. rewrite filter_In, negb_true_iff, Z.eqb_neq. tauto.
Qed.

Lemma set_delete_NoDup (x : Z) (s : list Z) : NoDup s -> NoDup (set_delete x s).
Proof. apply NoDup_filter. Qed.

Lemma range_In (n : nat) (p : Z) : In p (range n) <-> 0 <= p < Z.of_nat n.
Proof.
  unfold range. rewrite in_map_iff. split.
  - intros (i & <- & Hi). apply in_seq in Hi. lia.
  - intros H. exists (Z.to_nat p). split; [lia | apply in_seq; lia].
Qed.

Lemma range_NoDup (n : nat) : NoDup (range n).
Proof.
  unfold range. apply Finite.Injective_map_NoDup; [|apply seq_NoDup].
  intros a b. lia.
Qed.

Lemma range_length (n : nat) : length (range n) = n.
Proof. unfold range. rewrite length_map, length_seq. reflexivity. Qed.

(** A duplicate-free list of indices of [range n] has at most [n] members,
    and a point outside it as long as it has fewer. *)
Lemma range_bound (n : nat) (s : list Z) :
  NoDup s -> incl s (range n) -> (length s <= n)%nat.
Proof.
  intros Hs Hi. rewrite <- (range_length n). apply NoDup_incl_length; assumption.
Qed.

Lemma range_missing (n : nat) (s : list Z) :
  NoDup s -> (length s < n)%nat -> exists p, In p (range n) /\ ~ In p s.
Proof.
  intros Hs Hlt.
  destruct (existsb (fun p => negb (set_has s p)) (range n)) eqn:E.
  - apply existsb_exists in E. destruct E as (p & Hp & Hn).
    exists p. split; [exact Hp|]. apply set_has_not_In.
    apply negb_true_iff. exact Hn.
  - exfalso.
    assert (Hincl : incl (range n) s).
    { intros p Hp. apply set_has_In.
      destruct (set_has s p) eqn:E'; [reflexivity|].
      assert (X : existsb (fun p => negb (set_has s p)) (range n) = true).
      { apply existsb_exists. exists p. rewrite E'. auto. }
      congruence. }
    pose proof (NoDup_incl_length (range_NoDup n) Hincl) as Hlen.
    rewrite range_length in Hlen. lia.
Qed.

Lemma range_full (n : nat) (s : list Z) :
  NoDup s -> incl s (range n) -> length s = n -> incl (range n) s.
Proof.
  intros Hs Hi Hlen. apply NoDup_length_incl; [exact Hs | | exact Hi].
  rewrite range_length. lia.
Qed.

(** ** Construction *)

(** C6: construction fails exactly when the window or the cluster count is
    out of range ([startProb >= endProb], [startProb < 0], [endProb > 1] or
    [nClusters >= n], [n] the number of rows); otherwise the engine holds the
    matrix, [k], [n], the index range [0..n-1] and the window, with
    [clusters] unset and no medoid. *)
Theorem constructor_spec (dm : list (list Q)) (k : Z) (sp ep : Q) :
  ((exists msg, constructor dm k sp ep = inl (Error msg)) <->
   ((ep <= sp)%Q \/ (sp < 0)%Q \/ (1 < ep)%Q \/ Z.of_nat (length dm) <= k))
  /\
  (forall this, constructor dm k sp ep = inr this ->
     distanceMatrix this = dm /\ nClusters this = k /\
     nPoints this = length dm /\
     (forall p, In p (nRange this) <-> 0 <= p < Z.of_nat (length dm)) /\
     NoDup (nRange this) /\
     startProb this = sp /\ endProb this = ep /\
     clusters this = None /\ medoids this = []).
Proof.
  assert (Hw : Qle_bool 0 sp && Qltb sp ep && Qle_bool ep 1 = true <->
               ((0 <= sp)%Q /\ (sp < ep)%Q /\ (ep <= 1)%Q)).
  { rewrite !andb_true_iff, !Qle_bool_iff, Qltb_lt. tauto. }
  unfold constructor.
  destruct (Qle_bool 0 sp && Qltb sp ep && Qle_bool ep 1) eqn:Ew; simpl.
  - destruct (proj1 Hw eq_refl) as (H0 & Hlt & H1).
    destruct (k <? Z.of_nat (length dm)) eqn:Ek; simpl.
    + apply Z.ltb_lt in Ek. split.
      * split; [intros [msg Hm]; discriminate|].
        intros [H | [H | [H | H]]]; exfalso.
        -- exact (Qlt_not_le _ _ Hlt H).
        -- exact (Qlt_not_le _ _ H H0).
        -- exact (Qlt_not_le _ _ H H1).
        -- lia.
      * intros this Ht. inversion Ht; subst; simpl.
        repeat match goal with |- _ /\ _ => split end; try reflexivity.
        -- intros p. apply range_In.
        -- apply range_NoDup.
    + apply Z.ltb_ge in Ek. split.
      * split; [intros _; auto | intros _; eexists; reflexivity].
      * intros this Ht; discriminate.
  - split.
    + split; [|intros _; eexists; reflexivity].
      intros _.
      destruct (Qlt_le_dec sp 0) as [Ha | Ha]; [auto|].
      destruct (Qlt_le_dec sp ep) as [Hb | Hb]; [|auto].
      destruct (Qlt_le_dec 1 ep) as [Hc | Hc]; [auto|].
      exfalso. assert (X : false = true) by (apply Hw; auto). discriminate.
    + intros this Ht; discriminate.
Qed.

(** C10: the constructor asks nothing of the sign of the cluster count: on a
    matrix with at least one row, [nClusters <= 0] and a valid window
    construct an engine. *)
Theorem constructor_accepts_nonpositive_k (dm : list (list Q)) (k : Z) (sp ep : Q) :
  (1 <= length dm)%nat -> k <= 0 -> (0 <= sp)%Q -> (sp < ep)%Q -> (ep <= 1)%Q ->
  exists this, constructor dm k sp ep = inr this /\ nClusters this = k.
Proof.
  intros Hn Hk H0 Hlt H1. unfold constructor.
  apply Qle_bool_iff in H0, H1. apply Qltb_lt in Hlt.
  rewrite H0, Hlt, H1. simpl.
  assert (E : (k <? Z.of_nat (length dm)) = true) by (apply Z.ltb_lt; lia).
  rewrite E. simpl. eexists. split; reflexivity.
Qed.

Lemma constructor_accepts_nonpositive_k_witness :
  exists this, constructor line5 (-3) (90 # 100) (99 # 100) = inr this
               /\ nClusters this = -3.
Proof.
  apply (constructor_accepts_nonpositive_k line5 (-3) (90 # 100) (99 # 100)).
  - simpl. lia.
  - lia.
  - vm_compute. discriminate.
  - reflexivity.
  - vm_compute. discriminate.
Defined.

Lemma constructor_square (dm : list (list Q)) (k : Z) (sp ep : Q) (this : KMedoids) :
  constructor dm k sp ep = inr this ->
  Forall (fun row => length row = length dm) dm ->
  square_engine this /\ nClusters this = k /\ k < Z.of_nat (nPoints this) /\
  (0 <= startProb this)%Q /\ (startProb this < endProb this)%Q /\
  (endProb this <= 1)%Q.
Proof.
  unfold constructor. intros H Hsq.
  destruct (Qle_bool 0 sp) eqn:E1; destruct (Qltb sp ep) eqn:E2;
    destruct (Qle_bool ep 1) eqn:E3; simpl in H; try discriminate.
  destruct (k <? Z.of_nat (length dm)) eqn:E4; simpl in H; try discriminate.
  inversion H; subst; clear H. simpl.
  apply Qle_bool_iff in E1, E3. apply Qltb_lt in E2. apply Z.ltb_lt in E4.
  repeat split; auto.
Qed.

(** ** Seeding *)

Lemma Qfloor_below (x : Q) (z : Z) : (x < inject_Z z)%Q -> Qfloor x < z.
Proof.
  intros H. rewrite Zlt_Qlt.
  eapply Qle_lt_trans; [apply Qfloor_le | exact H].
Qed.

Lemma Qfloor_nonneg (x : Q) : (0 <= x)%Q -> 0 <= Qfloor x.
Proof.
  intros H. change 0 with (Qfloor (inject_Z 0)).
  apply Qfloor_resp_le. exact H.
Qed.

Lemma startIdx_bounds (this : KMedoids) (count : nat) :
  (0 <= startProb this)%Q -> (startProb this < 1)%Q -> (1 <= count)%nat ->
  0 <= startIdx_of this count <= Z.of_nat count - 1.
Proof.
  intros H0 H1 Hc. unfold startIdx_of, Math_floor.
  assert (Hpos : (0 < inject_Z (Z.of_nat count))%Q).
  { change 0%Q with (inject_Z 0). rewrite <- Zlt_Qlt. lia. }
  split.
  - apply Qfloor_nonneg. apply Qmult_le_0_compat; [exact H0 | apply Qlt_le_weak, Hpos].
  - enough (Qfloor (startProb this * inject_Z (Z.of_nat count)) < Z.of_nat count) by lia.
    apply Qfloor_below.
    setoid_replace (inject_Z (Z.of_nat count))
      with (1 * inject_Z (Z.of_nat count))%Q at 2 by ring.
    apply Qmult_lt_compat_r; assumption.
Qed.

Lemma endIdx_bounds (this : KMedoids) (count : nat) :
  (0 <= endProb this)%Q -> (endProb this <= 1)%Q -> (1 <= count)%nat ->
  0 <= endIdx_of this count <= Z.of_nat count - 1.
Proof.
  intros H0 H1 Hc. unfold endIdx_of, Math_round.
  assert (Hpos : (0 <= inject_Z (Z.of_nat count - 1))%Q).
  { change 0%Q with (inject_Z 0). rewrite <- Zle_Qle. lia. }
  assert (Hprod : (0 <= endProb this * inject_Z (Z.of_nat count - 1))%Q)
    by (apply Qmult_le_0_compat; assumption).
  split.
  - apply Qfloor_nonneg.
    apply (Qle_trans _ (0 + 0)%Q); [discriminate|].
    apply Qplus_le_compat; [exact Hprod | discriminate].
  - enough (Qfloor (endProb this * inject_Z (Z.of_nat count - 1) + (1 # 2))
            < Z.of_nat count) by lia.
    apply Qfloor_below.
    apply Qle_lt_trans with (inject_Z (Z.of_nat count - 1) + (1 # 2))%Q.
    + apply Qplus_le_compat; [|apply Qle_refl].
      setoid_replace (inject_Z (Z.of_nat count - 1))
        with (1 * inject_Z (Z.of_nat count - 1))%Q at 2 by ring.
      apply Qmult_le_compat_r; assumption.
    + replace (Z.of_nat count) with ((Z.of_nat count - 1) + 1) at 2 by lia.
      rewrite inject_Z_plus. apply Qplus_lt_r. reflexivity.
Qed.

Lemma random_bounds (lower upper : Z) (raw : nat) :
  Z.min lower upper <= random lower upper raw <= Z.max lower upper.
Proof.
  unfold random. cbv zeta.
  pose proof (Z.mod_pos_bound (Z.of_nat raw)
                (Z.max lower upper - Z.min lower upper + 1)) as H.
  lia.
Qed.

Lemma array_get_in_bounds {A : Type} (a : list A) (i : Z) :
  0 <= i < Z.of_nat (length a) -> exists x, array_get a i = Some x /\ In x a.
Proof.
  intros H. unfold array_get.
  assert (E : (i <? 0) = false) by (apply Z.ltb_ge; lia). rewrite E.
  destruct (nth_error a (Z.to_nat i)) eqn:En.
  - exists a0. split; [reflexivity | eapply nth_error_In; eassumption].
  - apply nth_error_None in En. lia.
Qed.

Lemma sort_insert_perm (x : PointDistance) (l : list PointDistance) :
  Permutation (sort_insert x l) (x :: l).
Proof.
  induction l as [|y l IH]; simpl; [reflexivity|].
  destruct (num_ltb (pd_distance y) (pd_distance x)); [|reflexivity].
  rewrite IH. apply perm_swap.
Qed.

Lemma sortBy_distance_perm (l : list PointDistance) :
  Permutation (sortBy_distance l) l.
Proof.
  induction l as [|x l IH]; simpl; [reflexivity|].
  rewrite sort_insert_perm. constructor. exact IH.
Qed.

Lemma seeding_distances_In (this : KMedoids) (medoids : list Z) (pd : PointDistance) :
  In pd (seeding_distances this medoids) ->
  In (pd_point pd) (nRange this) /\ ~ In (pd_point pd) medoids.
Proof.
  unfold seeding_distances. rewrite in_map_iff.
  intros (p & <- & Hp). simpl. apply filter_In in Hp. destruct Hp as [Hr Hn].
  split; [exact Hr|]. apply set_has_not_In. apply negb_true_iff. exact Hn.
Qed.

Lemma seeding_distances_nonempty (this : KMedoids) (medoids : list Z) (p : Z) :
  In p (nRange this) -> ~ In p medoids ->
  (1 <= length (seeding_distances this medoids))%nat.
Proof.
  intros Hr Hn. unfold seeding_distances. rewrite length_map.
  assert (H : In p (filter (fun point => negb (set_has medoids point)) (nRange this))).
  { apply filter_In. split; [exact Hr|].
    apply negb_true_iff, set_has_not_In. exact Hn. }
  destruct (filter _ (nRange this)); [destruct H | simpl; lia].
Qed.

(** Every index [random] can return for a window inside [0, 1] is a position
    of the sorted list. *)
Lemma pick_in_bounds (this : KMedoids) (count raw : nat) :
  (0 <= startProb this)%Q -> (startProb this < endProb this)%Q ->
  (endProb this <= 1)%Q -> (1 <= count)%nat ->
  0 <= startIdx_of this count <= Z.of_nat count - 1 /\
  0 <= endIdx_of this count <= Z.of_nat count - 1 /\
  0 <= random (startIdx_of this count) (endIdx_of this count) raw
    <= Z.of_nat count - 1.
Proof.
  intros H0 Hlt H1 Hc.
  assert (Hs := startIdx_bounds this count H0 (Qlt_le_trans _ _ _ Hlt H1) Hc).
  assert (He := endIdx_bounds this count
                  (Qle_trans _ _ _ H0 (Qlt_le_weak _ _ Hlt)) H1 Hc).
  pose proof (random_bounds (startIdx_of this count) (endIdx_of this count) raw).
  lia.
Qed.

Lemma initializeMedoids_while_total (this : KMedoids) (rand : nat -> nat) :
  nRange this = range (nPoints this) ->
  (0 <= startProb this)%Q -> (startProb this < endProb this)%Q ->
  (endProb this <= 1)%Q ->
  nClusters this < Z.of_nat (nPoints this) ->
  forall (fuel draw : nat) (medoids : list Z),
    medoid_set this medoids ->
    Z.of_nat (length medoids) <= nClusters this ->
    (Z.to_nat (nClusters this) - length medoids <= fuel)%nat ->
    exists m, initializeMedoids_while fuel rand this draw medoids = Ok m /\
              medoid_set this m /\ Z.of_nat (length m) = nClusters this.
Proof.
  intros Hrange H0 Hlt H1 Hk.
  induction fuel as [|fuel IH]; intros draw medoids [Hnd Hin] Hle Hfuel.
  - simpl. unfold size.
    assert (E : (Z.of_nat (length medoids) =? nClusters this) = true)
      by (apply Z.eqb_eq; lia).
    rewrite E. exists medoids. repeat split; auto. apply Z.eqb_eq; exact E.
  - simpl. unfold size.
    destruct (Z.of_nat (length medoids) =? nClusters this) eqn:E.
    + exists medoids. repeat split; auto. apply Z.eqb_eq; exact E.
    + apply Z.eqb_neq in E.
      destruct (range_missing (nPoints this) medoids Hnd ltac:(lia))
        as (p & Hp & Hnp).
      rewrite <- Hrange in Hp.
      pose proof (seeding_distances_nonempty this medoids p Hp Hnp) as Hcount.
      set (distances := seeding_distances this medoids) in *.
      destruct (pick_in_bounds this (length distances) (rand draw) H0 Hlt H1 Hcount)
        as (_ & _ & Hpick).
      destruct (array_get_in_bounds (sortBy_distance distances)
                  (random (startIdx_of this (length distances))
                          (endIdx_of this (length distances)) (rand draw)))
        as (picked & Eg & Hpicked).
      { rewrite (Permutation_length (sortBy_distance_perm distances)). lia. }
      rewrite Eg.
      apply (Permutation_in _ (sortBy_distance_perm distances)) in Hpicked.
      apply seeding_distances_In in Hpicked. destruct Hpicked as [Hpr Hpn].
      rewrite (set_add_fresh _ _ Hpn).
      apply IH.
      * split; [apply NoDup_snoc; assumption|].
        intros x Hx. apply in_app_iff in Hx. destruct Hx as [Hx | [<- | []]]; auto.
      * rewrite length_app. simpl. lia.
      * rewrite length_app. simpl. lia.
Qed.

Lemma initializeMedoids_total (this : KMedoids) (fuel : nat) (rand : nat -> nat) :
  nRange this = range (nPoints this) ->
  (0 <= startProb this)%Q -> (startProb this < endProb this)%Q ->
  (endProb this <= 1)%Q ->
  0 < nClusters this < Z.of_nat (nPoints this) ->
  (Z.to_nat (nClusters this) <= fuel)%nat ->
  exists m, initializeMedoids fuel rand this = Ok m /\
            NoDup m /\ incl m (nRange this) /\
            Z.of_nat (length m) = nClusters this.
Proof.
  intros Hrange H0 Hlt H1 Hk Hfuel.
  unfold initializeMedoids. simpl set_add.
  destruct (initializeMedoids_while_total this rand Hrange H0 Hlt H1
              ltac:(lia) fuel 1%nat
              [random 0 (Z.of_nat (nPoints this) - 1) (rand 0%nat)])
    as (m & Em & [Hnd Hin] & Hlen).
  - split; [repeat constructor; simpl; tauto|].
    intros x [<- | []]. rewrite Hrange. apply range_In.
    pose proof (random_bounds 0 (Z.of_nat (nPoints this) - 1) (rand 0%nat)).
    lia.
  - simpl. lia.
  - simpl. lia.
  - exists m. auto.
Qed.

(** C9: with a window [0 <= startProb < endProb <= 1] and at least one
    non-medoid left, [startIdx], [endIdx] and every index [random] may return
    lie in [0, count - 1]; and [initializeMedoids] returns, without reading
    past the end of the sorted list, [k] distinct point indices. *)
Theorem initializeMedoids_in_bounds (this : KMedoids) (fuel : nat) (rand : nat -> nat) :
  nRange this = range (nPoints this) ->
  (0 <= startProb this)%Q -> (startProb this < endProb this)%Q ->
  (endProb this <= 1)%Q ->
  0 < nClusters this < Z.of_nat (nPoints this) ->
  (Z.to_nat (nClusters this) <= fuel)%nat ->
  (forall count raw : nat, (1 <= count)%nat ->
     0 <= startIdx_of this count <= Z.of_nat count - 1 /\
     0 <= endIdx_of this count <= Z.of_nat count - 1 /\
     0 <= random (startIdx_of this count) (endIdx_of this count) raw
       <= Z.of_nat count - 1) /\
  (exists m, initializeMedoids fuel rand this = Ok m /\
             NoDup m /\ incl m (nRange this) /\
             Z.of_nat (length m) = nClusters this).
Proof.
  intros Hrange H0 Hlt H1 Hk Hfuel. split.
  - intros count raw Hc. apply pick_in_bounds; assumption.
  - apply initializeMedoids_total; assumption.
Qed.

Lemma initializeMedoids_in_bounds_witness :
  (forall count raw : nat, (1 <= count)%nat ->
     0 <= startIdx_of km5 count <= Z.of_nat count - 1 /\
     0 <= endIdx_of km5 count <= Z.of_nat count - 1 /\
     0 <= random (startIdx_of km5 count) (endIdx_of km5 count) raw
       <= Z.of_nat count - 1) /\
  (exists m, initializeMedoids 2 zero_draws km5 = Ok m /\
             NoDup m /\ incl m (nRange km5) /\
             Z.of_nat (length m) = nClusters km5).
Proof.
  apply (initializeMedoids_in_bounds km5 2 zero_draws).
  - reflexivity.
  - vm_compute. discriminate.
  - reflexivity.
  - vm_compute. discriminate.
  - simpl. lia.
  - simpl. lia.
Defined.

(** ** Distances and nearest-point queries *)

Lemma getDistance_Fin (this : KMedoids) (p m : Z) :
  square_engine this -> In p (nRange this) -> In m (nRange this) ->
  exists d, getDistance this p m = Fin d.
Proof.
  intros [Hn Hr Hrows] Hp Hm. rewrite Hr in Hp, Hm.
  apply range_In in Hp, Hm. unfold getDistance.
  destruct (array_get_in_bounds (distanceMatrix this) p) as (row & Er & Hrow);
    [lia|].
  rewrite Er. rewrite Forall_forall in Hrows. specialize (Hrows row Hrow).
  destruct (array_get_in_bounds row m) as (d & Ed & _); [lia|].
  rewrite Ed. eauto.
Qed.

Lemma getClosestPoint_scan (this : KMedoids) (medoid : Z) (exception : list Z) :
  getClosestPoint this medoid exception =
  fold_left (closer_point this medoid)
    (filter (fun x => negb (set_has exception x)) (nRange this))
    {| cp_point := None; cp_distance := PInf |}.
Proof. reflexivity. Qed.

Lemma scan_keeps (this : KMedoids) (medoid : Z) (visited points : list Z)
  (closest : ClosestPoint) :
  incl points visited -> scanned this medoid visited closest ->
  scanned this medoid visited (fold_left (closer_point this medoid) points closest).
Proof.
  revert closest. induction points as [|x points IH]; intros closest Hi Hc; simpl.
  - exact Hc.
  - apply IH; [intros y Hy; apply Hi; right; exact Hy|].
    unfold closer_point. cbv zeta.
    destruct (num_ltb (getDistance this x medoid) (cp_distance closest)); [|exact Hc].
    right. exists x. simpl. repeat split. apply Hi. left; reflexivity.
Qed.

Lemma scan_stays_found (this : KMedoids) (medoid : Z) (points : list Z)
  (closest : ClosestPoint) :
  cp_point closest <> None ->
  cp_point (fold_left (closer_point this medoid) points closest) <> None.
Proof.
  revert closest. induction points as [|x points IH]; intros closest Hc; simpl.
  - exact Hc.
  - apply IH. unfold closer_point. cbv zeta.
    destruct (num_ltb (getDistance this x medoid) (cp_distance closest));
      [simpl; discriminate | exact Hc].
Qed.

Lemma scan_finds (this : KMedoids) (medoid : Z) (points : list Z)
  (closest : ClosestPoint) (p : Z) (d : Q) :
  In p points -> getDistance this p medoid = Fin d ->
  cp_point closest = None -> cp_distance closest = PInf ->
  cp_point (fold_left (closer_point this medoid) points closest) <> None.
Proof.
  revert closest. induction points as [|x points IH];
    intros closest Hp Hd Hn Hinf; simpl; [destruct Hp|].
  destruct Hp as [-> | Hp].
  - apply scan_stays_found. unfold closer_point. cbv zeta.
    rewrite Hd, Hinf. simpl. discriminate.
  - destruct (cp_point (closer_point this medoid closest x)) eqn:E.
    + apply scan_stays_found. congruence.
    + apply IH; try assumption.
      revert E. unfold closer_point. cbv zeta.
      destruct (num_ltb (getDistance this x medoid) (cp_distance closest));
        [simpl; discriminate | intros _; exact Hinf].
Qed.

Lemma getClosestPoint_Some (this : KMedoids) (medoid : Z) (exception : list Z) (p : Z) :
  cp_point (getClosestPoint this medoid exception) = Some p ->
  In p (nRange this) /\ ~ In p exception /\
  cp_distance (getClosestPoint this medoid exception) = getDistance this p medoid.
Proof.
  rewrite getClosestPoint_scan. intros H.
  set (points := filter (fun x => negb (set_has exception x)) (nRange this)) in *.
  destruct (scan_keeps this medoid points points
              {| cp_point := None; cp_distance := PInf |})
    as [[Hn _] | (q & Hq & Hin & Hd)].
  - intros x Hx; exact Hx.
  - left. split; reflexivity.
  - congruence.
  - rewrite H in Hq. inversion Hq; subst q.
    unfold points in Hin. apply filter_In in Hin. destruct Hin as [Hr Hx].
    repeat split; [exact Hr | | exact Hd].
    apply set_has_not_In, negb_true_iff. exact Hx.
Qed.

Lemma getClosestPoint_found (this : KMedoids) (medoid : Z) (exception : list Z) (p : Z) :
  square_engine this -> In medoid (nRange this) ->
  In p (nRange this) -> ~ In p exception ->
  exists p', cp_point (getClosestPoint this medoid exception) = Some p'.
Proof.
  intros Hsq Hm Hp Hx.
  destruct (getDistance_Fin this p medoid Hsq Hp Hm) as [d Hd].
  destruct (cp_point (getClosestPoint this medoid exception)) eqn:E; [eauto|].
  exfalso. revert E. rewrite getClosestPoint_scan.
  apply (scan_finds this medoid _ _ p d); try reflexivity; [|exact Hd].
  apply filter_In. split; [exact Hp|].
  apply negb_true_iff, set_has_not_In. exact Hx.
Qed.

(** ** Maps kept as entry lists *)

Lemma map_set_fresh {V : Type} (k : Z) (v : V) (m : list (Z * V)) :
  ~ In k (keys m) -> map_set k v m = m ++ [(k, v)].
Proof.
  induction m as [|[k' v'] m IH]; simpl; intros H; [reflexivity|].
  destruct (k' =? k) eqn:E.
  - apply Z.eqb_eq in E. exfalso. apply H. left. exact E.
  - rewrite IH; [reflexivity | tauto].
Qed.

Lemma map_get_middle {V : Type} (l1 l2 : list (Z * V)) (k : Z) (v : V) :
  ~ In k (keys l1) -> map_get (l1 ++ (k, v) :: l2) k = Some v.
Proof.
  induction l1 as [|[k' v'] l1 IH]; simpl; intros H.
  - rewrite Z.eqb_refl. reflexivity.
  - destruct (k' =? k) eqn:E; [apply Z.eqb_eq in E; tauto | apply IH; tauto].
Qed.

Lemma map_set_middle {V : Type} (l1 l2 : list (Z * V)) (k : Z) (v v' : V) :
  ~ In k (keys l1) -> map_set k v' (l1 ++ (k, v) :: l2) = l1 ++ (k, v') :: l2.
Proof.
  induction l1 as [|[k' v0] l1 IH]; simpl; intros H.
  - rewrite Z.eqb_refl. reflexivity.
  - destruct (k' =? k) eqn:E; [apply Z.eqb_eq in E; tauto|].
    rewrite IH; [reflexivity | tauto].
Qed.

Lemma split_key {V : Type} (l : list (Z * V)) (k : Z) :
  In k (keys l) ->
  exists l1 v l2, l = l1 ++ (k, v) :: l2 /\ ~ In k (keys l1).
Proof.
  induction l as [|[k' v'] l IH]; simpl; intros H; [destruct H|].
  destruct (Z.eq_dec k' k) as [-> | Hne].
  - exists [], v', l. split; [reflexivity | simpl; tauto].
  - destruct H as [H | H]; [contradiction|].
    destruct (IH H) as (l1 & v & l2 & -> & Hn).
    exists ((k', v') :: l1), v, l2. split; [reflexivity|].
    simpl. tauto.
Qed.

Lemma map_get_NoDup {V : Type} (l : list (Z * V)) (k : Z) (v : V) :
  NoDup (keys l) -> In (k, v) l -> map_get l k = Some v.
Proof.
  induction l as [|[k' v'] l IH]; simpl; intros Hnd Hin; [destruct Hin|].
  inversion Hnd as [|? ? Hk Hnd']; subst.
  destruct Hin as [E | Hin].
  - inversion E; subst. rewrite Z.eqb_refl. reflexivity.
  - destruct (k' =? k) eqn:E; [|apply IH; assumption].
    apply Z.eqb_eq in E. subst k'. exfalso. apply Hk.
    unfold keys. apply in_map_iff. exists (k, v). auto.
Qed.

Lemma map_outcome_Ok {A B : Type} (f : A -> outcome B) (g : A -> B) (l : list A) :
  (forall x, In x l -> f x = Ok (g x)) -> map_outcome f l = Ok (map g l).
Proof.
  induction l as [|x l IH]; simpl; intros H; [reflexivity|].
  rewrite (H x (or_introl eq_refl)). simpl.
  rewrite IH; [reflexivity | intros y Hy; apply H; right; exact Hy].
Qed.

(** ** Assignment: the loop invariant *)

Lemma keys_group_cluster (groups : list (Z * list Z)) :
  keys (map group_cluster groups) = map fst groups.
Proof. unfold keys. rewrite map_map. reflexivity. Qed.

Lemma keys_group_cost (this : KMedoids) (groups : list (Z * list Z)) :
  keys (map (group_cost this) groups) = map fst groups.
Proof. unfold keys. rewrite map_map. reflexivity. Qed.

Lemma distance_total_snoc (this : KMedoids) (medoid p : Z) (a : list Z) :
  distance_total this medoid (a ++ [p]) =
  num_add (distance_total this medoid a) (getDistance this p medoid).
Proof.
  unfold distance_total, sum. rewrite map_app, fold_left_app. reflexivity.
Qed.

Lemma perm_insert_last (l1 a l2 : list Z) (p : Z) :
  Permutation (p :: l1 ++ a ++ l2) (l1 ++ (a ++ [p]) ++ l2).
Proof.
  rewrite <- (app_assoc a [p] l2). simpl.
  rewrite (app_assoc l1 a (p :: l2)).
  apply Permutation_cons_app. rewrite app_assoc. reflexivity.
Qed.

Lemma concat_members_perm (groups : list (Z * list Z)) :
  Permutation (concat (map snd (map group_cluster groups)))
              (map fst groups ++ concat (map snd groups)).
Proof.
  induction groups as [|[m a] groups IH]; simpl; [reflexivity|].
  constructor. rewrite IH.
  rewrite !app_assoc. apply Permutation_app_tail. apply Permutation_app_comm.
Qed.

Lemma assoc_init_fold (pre ms already : list Z) (count : nat) :
  NoDup (pre ++ ms) ->
  fold_left
    (fun st medoid =>
       {| as_clusters := map_set medoid [medoid] (as_clusters st);
          as_clustersCosts := map_set medoid (Fin 0) (as_clustersCosts st);
          as_alreadyAssociatedPoints := as_alreadyAssociatedPoints st;
          as_associatedPoints := as_associatedPoints st |})
    ms
    {| as_clusters := map (fun m => (m, [m])) pre;
       as_clustersCosts := map (fun m => (m, Fin 0)) pre;
       as_alreadyAssociatedPoints := already;
       as_associatedPoints := count |}
  = {| as_clusters := map (fun m => (m, [m])) (pre ++ ms);
       as_clustersCosts := map (fun m => (m, Fin 0)) (pre ++ ms);
       as_alreadyAssociatedPoints := already;
       as_associatedPoints := count |}.
Proof.
  revert pre. induction ms as [|m ms IH]; intros pre Hnd; simpl.
  - rewrite app_nil_r. reflexivity.
  - assert (Hm : ~ In m pre).
    { apply NoDup_remove_2 in Hnd. rewrite in_app_iff in Hnd. tauto. }
    rewrite !map_set_fresh.
    + replace (map (fun m0 => (m0, [m0])) pre ++ [(m, [m])])
        with (map (fun m0 => (m0, [m0])) (pre ++ [m]))
        by (rewrite map_app; reflexivity).
      replace (map (fun m0 => (m0, Fin 0)) pre ++ [(m, Fin 0)])
        with (map (fun m0 : Z => (m0, Fin 0)) (pre ++ [m]))
        by (rewrite map_app; reflexivity).
      rewrite IH; rewrite <- app_assoc; [reflexivity | exact Hnd].
    + unfold keys. rewrite map_map. simpl. rewrite map_id. exact Hm.
    + unfold keys. rewrite map_map. simpl. rewrite map_id. exact Hm.
Qed.

Lemma concat_empty_groups (medoids : list Z) :
  concat (map snd (map (fun m : Z => (m, @nil Z)) medoids)) = [].
Proof.
  induction medoids as [|m medoids IH]; simpl; [reflexivity | exact IH].
Qed.

Lemma assoc_init_inv (this : KMedoids) (medoids : list Z) :
  medoid_set this medoids ->
  assoc_inv this medoids (map (fun m => (m, [])) medoids) (assoc_init medoids).
Proof.
  intros [Hnd Hin]. unfold assoc_init.
  pose proof (assoc_init_fold [] medoids medoids (size medoids) Hnd) as E.
  simpl in E. rewrite E. clear E.
  constructor; simpl.
  - rewrite map_map. reflexivity.
  - rewrite map_map. reflexivity.
  - rewrite map_map. simpl. apply map_id.
  - rewrite concat_empty_groups, app_nil_r. reflexivity.
  - exact Hnd.
  - exact Hin.
  - reflexivity.
Qed.

Lemma assoc_inv_medoid_in_range (this : KMedoids) (medoids : list Z)
  (groups : list (Z * list Z)) (st : AssocState) (m : Z) :
  assoc_inv this medoids groups st -> In m medoids -> In m (nRange this).
Proof.
  intros Hinv Hm. apply (ai_range _ _ _ _ Hinv).
  apply (Permutation_in _ (Permutation_sym (ai_perm _ _ _ _ Hinv))).
  apply in_app_iff. left. exact Hm.
Qed.

Lemma assoc_inv_bound (this : KMedoids) (medoids : list Z)
  (groups : list (Z * list Z)) (st : AssocState) :
  square_engine this -> assoc_inv this medoids groups st ->
  (as_associatedPoints st <= nPoints this)%nat.
Proof.
  intros Hsq Hinv. rewrite (ai_count _ _ _ _ Hinv).
  apply range_bound; [exact (ai_nodup _ _ _ _ Hinv)|].
  rewrite <- (sq_range _ Hsq). exact (ai_range _ _ _ _ Hinv).
Qed.

(** One call of the callback either finds every point assigned and leaves
    the state alone, or assigns one more point to the medoid's group. *)
Lemma assoc_body_step (this : KMedoids) (medoids : list Z)
  (groups : list (Z * list Z)) (st : AssocState) (medoid : Z) :
  square_engine this -> assoc_inv this medoids groups st -> In medoid medoids ->
  (as_associatedPoints st = nPoints this /\ assoc_body this st medoid = Ok st) \/
  (exists p g1 a g2 st',
     groups = g1 ++ (medoid, a) :: g2 /\ ~ In medoid (map fst g1) /\
     In p (nRange this) /\ ~ In p (as_alreadyAssociatedPoints st) /\
     assoc_body this st medoid = Ok st' /\
     assoc_inv this medoids (g1 ++ (medoid, a ++ [p]) :: g2) st' /\
     as_associatedPoints st' = S (as_associatedPoints st)).
Proof.
  intros Hsq Hinv Hm.
  pose proof (assoc_inv_medoid_in_range _ _ _ _ _ Hinv Hm) as Hmr.
  destruct Hinv as [Hcl Hco Hk Hperm Hnd Hr Hc].
  unfold assoc_body. cbv zeta.
  destruct (cp_point (getClosestPoint this medoid (as_alreadyAssociatedPoints st)))
    as [p|] eqn:Ep.
  - right. apply getClosestPoint_Some in Ep. destruct Ep as (Hpr & Hpn & Hd).
    assert (Hkey : In medoid (keys groups)) by (unfold keys; rewrite Hk; exact Hm).
    destruct (split_key groups medoid Hkey) as (g1 & a & g2 & -> & Hg1).
    exists p, g1, a, g2.
    assert (Hsub : forall x, In x (medoid :: a) -> In x (as_alreadyAssociatedPoints st)).
    { intros x Hx. apply (Permutation_in _ (Permutation_sym Hperm)).
      apply in_app_iff. destruct Hx as [<- | Hx]; [left; exact Hm | right].
      rewrite map_app, concat_app. simpl. rewrite !in_app_iff. tauto. }
    assert (Hfresh : ~ In p (medoid :: a)) by (intros Hx; apply Hpn, Hsub, Hx).
    rewrite Hcl, Hco, !map_app. simpl map.
    change (group_cluster (medoid, a)) with (medoid, medoid :: a).
    change (group_cost this (medoid, a)) with (medoid, distance_total this medoid a).
    rewrite map_get_middle by (rewrite keys_group_cluster; exact Hg1).
    unfold cost_get.
    rewrite map_get_middle by (rewrite keys_group_cost; exact Hg1).
    rewrite !map_set_middle
      by (rewrite ?keys_group_cluster, ?keys_group_cost; exact Hg1).
    rewrite (set_add_fresh _ _ Hfresh), (set_add_fresh _ _ Hpn), Hd.
    eexists. repeat split; try eassumption; try reflexivity; simpl.
    + rewrite map_app. reflexivity.
    + rewrite map_app.
      change (map (group_cost this) ((medoid, a ++ [p]) :: g2))
        with ((medoid, distance_total this medoid (a ++ [p]))
                :: map (group_cost this) g2).
      rewrite distance_total_snoc. reflexivity.
    + rewrite <- Hk, !map_app. reflexivity.
    + rewrite map_app, concat_app in Hperm. rewrite map_app, concat_app.
      simpl in Hperm. simpl.
      transitivity (p :: as_alreadyAssociatedPoints st).
      { symmetry. apply Permutation_cons_append. }
      rewrite Hperm.
      rewrite (app_assoc medoids (concat (map snd g1))
                 (a ++ concat (map snd g2))).
      rewrite (app_assoc medoids (concat (map snd g1))
                 ((a ++ [p]) ++ concat (map snd g2))).
      apply perm_insert_last.
    + apply NoDup_snoc; assumption.
    + intros x Hx. apply in_app_iff in Hx. destruct Hx as [Hx | [<- | []]]; auto.
    + rewrite length_app. simpl. lia.
  - left. split; [|reflexivity].
    pose proof (range_bound (nPoints this) _ Hnd) as Hb.
    rewrite <- (sq_range _ Hsq) in Hb. specialize (Hb Hr).
    destruct (Nat.eq_dec (as_associatedPoints st) (nPoints this)) as [E | Hne];
      [exact E | exfalso].
    destruct (range_missing (nPoints this) _ Hnd ltac:(lia)) as (p & Hp & Hn).
    rewrite <- (sq_range _ Hsq) in Hp.
    destruct (getClosestPoint_found this medoid _ p Hsq Hmr Hp Hn) as [p' E'].
    congruence.
Qed.

Lemma assoc_pass_total (this : KMedoids) (medoids rest : list Z) (st : AssocState) :
  square_engine this -> incl rest medoids ->
  (exists groups, assoc_inv this medoids groups st) ->
  exists st', forEach rest (assoc_body this) st = Ok st' /\
              (exists groups, assoc_inv this medoids groups st') /\
              (as_associatedPoints st <= as_associatedPoints st')%nat.
Proof.
  intros Hsq Hincl Hinv.
  apply (forEach_total (fun s => exists groups, assoc_inv this medoids groups s)
           (fun s s' => (as_associatedPoints s <= as_associatedPoints s')%nat));
    [lia | lia | | exact Hinv].
  intros s x Hx [groups Hs].
  destruct (assoc_body_step this medoids groups s x Hsq Hs (Hincl x Hx))
    as [[_ E] | (p & g1 & a & g2 & s' & _ & _ & _ & _ & E & Hs' & Hc)].
  - exists s. split; [exact E|]. split; [eauto | lia].
  - exists s'. split; [exact E|]. split; [eauto | lia].
Qed.

Lemma assoc_while_total (this : KMedoids) (medoids : list Z) :
  square_engine this -> medoids <> [] ->
  forall (fuel : nat) (st : AssocState),
    (exists groups, assoc_inv this medoids groups st) ->
    (nPoints this - as_associatedPoints st <= fuel)%nat ->
    exists st', assoc_while fuel this medoids st = Ok st' /\
                (exists groups, assoc_inv this medoids groups st') /\
                as_associatedPoints st' = nPoints this.
Proof.
  intros Hsq Hne. induction fuel as [|fuel IH]; intros st [groups Hinv] Hfuel;
    pose proof (assoc_inv_bound this medoids groups st Hsq Hinv) as Hb; simpl.
  - assert (E : as_associatedPoints st = nPoints this) by lia.
    rewrite (proj2 (Nat.eqb_eq _ _) E). eauto.
  - destruct (Nat.eqb (as_associatedPoints st) (nPoints this)) eqn:E.
    + apply Nat.eqb_eq in E. eauto.
    + apply Nat.eqb_neq in E.
      destruct medoids as [|m1 rest]; [congruence|]. simpl.
      destruct (assoc_body_step this (m1 :: rest) groups st m1 Hsq Hinv
                  (or_introl eq_refl))
        as [[E' _] | (p & g1 & a & g2 & st1 & _ & _ & _ & _ & E1 & Hinv1 & Hc1)];
        [congruence|].
      rewrite E1. simpl.
      destruct (assoc_pass_total this (m1 :: rest) rest st1 Hsq)
        as (st2 & E2 & Hinv2 & Hc2); [intros x Hx; right; exact Hx | eauto |].
      rewrite E2. simpl. apply IH; [exact Hinv2 | lia].
Qed.

Lemma group_lookup (this : KMedoids) (medoids : list Z)
  (groups : list (Z * list Z)) (st : AssocState) (g : Z * list Z) :
  NoDup medoids -> assoc_inv this medoids groups st -> In g groups ->
  map_get (as_clusters st) (fst g) = Some (fst g :: snd g) /\
  cost_get (as_clustersCosts st) (fst g) = distance_total this (fst g) (snd g) /\
  ~ In (fst g) (snd g).
Proof.
  intros Hnd Hinv Hg. destruct Hinv as [Hcl Hco Hk Hperm Hnda Hr Hc].
  repeat split.
  - rewrite Hcl. apply map_get_NoDup.
    + rewrite keys_group_cluster, Hk. exact Hnd.
    + apply in_map_iff. exists g. split; [reflexivity | exact Hg].
  - unfold cost_get. rewrite Hco.
    rewrite (map_get_NoDup _ (fst g) (distance_total this (fst g) (snd g)));
      [reflexivity | rewrite keys_group_cost, Hk; exact Hnd |].
    apply in_map_iff. exists g. split; [reflexivity | exact Hg].
  - intros Hin. apply (Permutation_NoDup Hperm) in Hnda.
    apply NoDup_app_remove_l in Hnda as Hx. clear Hx.
    rewrite <- Hk in Hnda.
    assert (H1 : In (fst g) (map fst groups)) by (apply in_map; exact Hg).
    assert (H2 : In (fst g) (concat (map snd groups))).
    { apply in_concat. exists (snd g). split; [apply in_map; exact Hg | exact Hin]. }
    clear - Hnda H1 H2. revert Hnda H1 H2.
    generalize (map fst groups) (concat (map snd groups)) (fst g).
    intros l1 l2 x Hnd H1 H2.
    induction l1 as [|y l1 IH]; [destruct H1|].
    simpl in Hnd. inversion Hnd as [|? ? Hy Hnd']; subst.
    destruct H1 as [-> | H1]; [|apply IH; assumption].
    apply Hy. apply in_app_iff. right. exact H2.
Qed.

(** The assignment returns for every non-empty set of distinct in-range
    medoids, in at most [n] passes of its loop, and its result reads off a
    final state of the loop that satisfies the invariant. *)
Lemma associate_total (this : KMedoids) (fuel : nat) (medoids : list Z) :
  square_engine this -> medoids <> [] -> medoid_set this medoids ->
  (nPoints this <= fuel)%nat ->
  exists st groups,
    assoc_while fuel this medoids (assoc_init medoids) = Ok st /\
    assoc_inv this medoids groups st /\
    as_associatedPoints st = nPoints this /\
    associateMedoidsToClosestPoint fuel this medoids =
    Ok {| ar_clusters := as_clusters st;
          configurationCost :=
            sum (map (fun g => num_div (distance_total this (fst g) (snd g))
                                       (S (length (snd g)))) groups) |}.
Proof.
  intros Hsq Hne Hms Hfuel.
  destruct (assoc_while_total this medoids Hsq Hne fuel (assoc_init medoids))
    as (st & E & [groups Hinv] & Hc).
  - eexists. apply assoc_init_inv. exact Hms.
  - lia.
  - exists st, groups. split; [exact E | split; [exact Hinv | split; [exact Hc|]]].
    unfold associateMedoidsToClosestPoint. rewrite E. simpl.
    rewrite (ai_clusters _ _ _ _ Hinv) at 1. rewrite keys_group_cluster.
    assert (Hmeans :
      map_outcome (cluster_mean st) (map fst groups) =
      Ok (map (fun g => num_div (distance_total this (fst g) (snd g))
                                (S (length (snd g)))) groups)).
    { clear E. assert (Hall : incl groups groups) by (intros x Hx; exact Hx).
      revert Hall. generalize groups at 1 3 4. intros l.
      induction l as [|g l IH]; intros Hall; simpl; [reflexivity|].
      destruct (group_lookup this medoids groups st g (proj1 Hms) Hinv
                  (Hall g (or_introl eq_refl))) as (Eg & Ec & _).
      unfold cluster_mean at 1. rewrite Eg, Ec. simpl.
      rewrite IH; [reflexivity | intros x Hx; apply Hall; right; exact Hx]. }
    rewrite Hmeans. reflexivity.
Qed.

(** ** Assignment: partition, self-membership, cost *)

Lemma members_in_clusters (cl : Clustering) (p : Z) :
  (exists m members, In (m, members) cl /\ In p members) <->
  In p (concat (map snd cl)).
Proof.
  rewrite in_concat. split.
  - intros (m & members & Hc & Hp). exists members. split; [|exact Hp].
    apply in_map_iff. exists (m, members). auto.
  - intros (members & Hm & Hp). apply in_map_iff in Hm.
    destruct Hm as ([m members'] & E & Hc). simpl in E. subst. eauto.
Qed.

(** C2: for a non-empty set of distinct in-range medoids on a square matrix,
    the assignment returns clusters keyed by the medoids whose member sets
    cover exactly the points [0..n-1], with no point listed twice (neither in
    one cluster nor in two), and every medoid is a member of its own
    cluster. *)
Theorem associate_partition (this : KMedoids) (fuel : nat) (medoids : list Z) :
  square_engine this -> medoids <> [] -> NoDup medoids ->
  incl medoids (nRange this) -> (nPoints this <= fuel)%nat ->
  exists r,
    associateMedoidsToClosestPoint fuel this medoids = Ok r /\
    keys (ar_clusters r) = medoids /\
    (forall p, 0 <= p < Z.of_nat (nPoints this) <->
               exists m members, In (m, members) (ar_clusters r) /\ In p members) /\
    NoDup (concat (map snd (ar_clusters r))) /\
    (forall m, In m medoids ->
               exists members, map_get (ar_clusters r) m = Some members /\
                               In m members).
Proof.
  intros Hsq Hne Hnd Hin Hfuel.
  destruct (associate_total this fuel medoids Hsq Hne (conj Hnd Hin) Hfuel)
    as (st & groups & _ & Hinv & Hc & E).
  eexists. split; [exact E|]. simpl.
  assert (Hperm : Permutation (concat (map snd (as_clusters st)))
                              (as_alreadyAssociatedPoints st)).
  { rewrite (ai_clusters _ _ _ _ Hinv), concat_members_perm,
      (ai_keys _ _ _ _ Hinv).
    symmetry. exact (ai_perm _ _ _ _ Hinv). }
  repeat match goal with |- _ /\ _ => split end.
  - rewrite (ai_clusters _ _ _ _ Hinv), keys_group_cluster.
    exact (ai_keys _ _ _ _ Hinv).
  - intros p. rewrite members_in_clusters, <- range_In, <- (sq_range _ Hsq).
    split; intros H.
    + apply (Permutation_in _ (Permutation_sym Hperm)).
      rewrite (sq_range _ Hsq) in H. revert p H.
      apply range_full.
      * exact (ai_nodup _ _ _ _ Hinv).
      * rewrite <- (sq_range _ Hsq). exact (ai_range _ _ _ _ Hinv).
      * rewrite <- (ai_count _ _ _ _ Hinv). exact Hc.
    + apply (ai_range _ _ _ _ Hinv). apply (Permutation_in _ Hperm). exact H.
  - apply (Permutation_NoDup (Permutation_sym Hperm)).
    exact (ai_nodup _ _ _ _ Hinv).
  - intros m Hm. rewrite <- (ai_keys _ _ _ _ Hinv) in Hm.
    apply in_map_iff in Hm. destruct Hm as (g & <- & Hg).
    destruct (group_lookup this medoids groups st g Hnd Hinv Hg) as (Eg & _ & _).
    exists (fst g :: snd g). split; [exact Eg | left; reflexivity].
Qed.

Lemma km5_square : square_engine km5.
Proof.
  constructor; [reflexivity | reflexivity | repeat constructor].
Qed.

Lemma associate_partition_witness :
  exists r,
    associateMedoidsToClosestPoint 5 km5 [0; 3] = Ok r /\
    keys (ar_clusters r) = [0; 3] /\
    (forall p, 0 <= p < Z.of_nat (nPoints km5) <->
               exists m members, In (m, members) (ar_clusters r) /\ In p members) /\
    NoDup (concat (map snd (ar_clusters r))) /\
    (forall m, In m [0; 3] ->
               exists members, map_get (ar_clusters r) m = Some members /\
                               In m members).
Proof.
  apply (associate_partition km5 5 [0; 3]).
  - exact km5_square.
  - discriminate.
  - repeat constructor; simpl; intuition lia.
  - intros x [<- | [<- | []]]; apply range_In; simpl; lia.
  - simpl. lia.
Defined.




(** ** Assignment with a single non-medoid *)

Lemma forEach_unchanged {S A : Type} (l : list A) (body : S -> A -> outcome S) (s : S) :
  (forall x, In x l -> body s x = Ok s) -> forEach l body s = Ok s.
Proof.
  induction l as [|x l IH]; intros H; simpl; [reflexivity|].
  rewrite (H x (or_introl eq_refl)). simpl.
  apply IH. intros y Hy. apply H. right. exact Hy.
Qed.

Lemma assoc_while_done (fuel : nat) (this : KMedoids) (medoids : list Z)
  (st : AssocState) :
  as_associatedPoints st = nPoints this -> assoc_while fuel this medoids st = Ok st.
Proof.
  intros E. apply Nat.eqb_eq in E. destruct fuel; simpl; rewrite E; reflexivity.
Qed.

Lemma assoc_body_full (this : KMedoids) (medoids : list Z)
  (groups : list (Z * list Z)) (st : AssocState) (medoid : Z) :
  square_engine this -> assoc_inv this medoids groups st -> In medoid medoids ->
  as_associatedPoints st = nPoints this -> assoc_body this st medoid = Ok st.
Proof.
  intros Hsq Hinv Hm Hc.
  destruct (assoc_body_step this medoids groups st medoid Hsq Hinv Hm)
    as [[_ E] | (p & g1 & a & g2 & st' & _ & _ & _ & _ & _ & Hinv' & Hc')];
    [exact E | exfalso].
  pose proof (assoc_inv_bound this medoids _ st' Hsq Hinv'). lia.
Qed.

Lemma map_get_singletons (rest : list Z) (m : Z) :
  In m rest -> map_get (map (fun m0 => (m0, [m0])) rest) m = Some [m].
Proof.
  induction rest as [|x rest IH]; simpl; intros H; [destruct H|].
  destruct (x =? m) eqn:E.
  - apply Z.eqb_eq in E. subst. reflexivity.
  - apply Z.eqb_neq in E. destruct H as [H | H]; [contradiction | apply IH, H].
Qed.

(** C8: with [n - 1] medoids, one cluster holds exactly two points, a medoid
    and the only non-medoid, and every other cluster is the singleton of its
    medoid. *)
Theorem associate_all_but_one (this : KMedoids) (fuel : nat) (medoids : list Z) :
  square_engine this -> medoids <> [] -> NoDup medoids ->
  incl medoids (nRange this) -> S (length medoids) = nPoints this ->
  (nPoints this <= fuel)%nat ->
  exists r m x,
    associateMedoidsToClosestPoint fuel this medoids = Ok r /\
    keys (ar_clusters r) = medoids /\
    In m medoids /\ In x (nRange this) /\ ~ In x medoids /\
    map_get (ar_clusters r) m = Some [m; x] /\
    (forall m', In m' medoids -> m' <> m -> map_get (ar_clusters r) m' = Some [m']).
Proof.
  intros Hsq Hne Hnd Hin Hlen Hfuel.
  destruct (associate_total this fuel medoids Hsq Hne (conj Hnd Hin) Hfuel)
    as (st & groups & Ew & _ & _ & E).
  destruct medoids as [|m1 rest]; [congruence|].
  pose proof (assoc_init_inv this (m1 :: rest) (conj Hnd Hin)) as Hinv0.
  set (st0 := assoc_init (m1 :: rest)) in *.
  assert (Hc0 : as_associatedPoints st0 = length (m1 :: rest)).
  { rewrite (ai_count _ _ _ _ Hinv0). apply Permutation_length.
    rewrite (ai_perm _ _ _ _ Hinv0), concat_empty_groups, app_nil_r. reflexivity. }
  assert (Ha0 : forall y, In y (as_alreadyAssociatedPoints st0) -> In y (m1 :: rest)).
  { intros y Hy. apply (Permutation_in _ (ai_perm _ _ _ _ Hinv0)) in Hy.
    rewrite concat_empty_groups, app_nil_r in Hy. exact Hy. }
  destruct (assoc_body_step this (m1 :: rest) _ st0 m1 Hsq Hinv0 (or_introl eq_refl))
    as [[Hc _] | (p & g1 & a & g2 & st1 & Eg & Hg1 & Hpr & Hpn & E1 & Hinv1 & Hc1)].
  { exfalso. simpl in Hc0, Hlen. lia. }
  assert (Hshape : g1 = [] /\ a = [] /\ g2 = map (fun m => (m, [])) rest).
  { destruct g1 as [|g g1']; simpl in Eg.
    - inversion Eg; subst. auto.
    - exfalso. inversion Eg; subst. apply Hg1. left. reflexivity. }
  destruct Hshape as (-> & -> & ->). simpl in Hinv1.
  assert (Hfull : as_associatedPoints st1 = nPoints this)
    by (simpl in Hc0, Hlen; lia).
  assert (E2 : forEach rest (assoc_body this) st1 = Ok st1).
  { apply forEach_unchanged. intros y Hy.
    apply (assoc_body_full this (m1 :: rest) _ st1 y Hsq Hinv1); [right; exact Hy|].
    exact Hfull. }
  assert (Ew' : assoc_while fuel this (m1 :: rest) st0 = Ok st1).
  { destruct fuel as [|fuel]; [lia|]. simpl.
    replace (Nat.eqb (as_associatedPoints st0) (nPoints this)) with false
      by (symmetry; apply Nat.eqb_neq; simpl in Hc0, Hlen; lia).
    rewrite E1. simpl. rewrite E2. simpl. apply assoc_while_done. exact Hfull. }
  rewrite Ew' in Ew. inversion Ew; subst st. clear Ew.
  eexists. exists m1, p. split; [exact E|]. simpl.
  rewrite (ai_clusters _ _ _ _ Hinv1). simpl.
  repeat match goal with |- _ /\ _ => split end.
  - unfold keys. simpl. f_equal. rewrite !map_map. simpl. apply map_id.
  - left; reflexivity.
  - exact Hpr.
  - intros Hp. apply Hpn.
    apply (Permutation_in _ (Permutation_sym (ai_perm _ _ _ _ Hinv0))).
    rewrite concat_empty_groups, app_nil_r. exact Hp.
  - unfold group_cluster at 1. simpl. rewrite Z.eqb_refl. reflexivity.
  - intros m' [-> | Hm'] Hneq; [congruence|].
    unfold group_cluster at 1. simpl.
    replace (m1 =? m') with false by (symmetry; apply Z.eqb_neq; congruence).
    rewrite map_map. simpl. apply map_get_singletons. exact Hm'.
Qed.

Lemma associate_all_but_one_witness :
  exists r m x,
    associateMedoidsToClosestPoint 5 km5 [4; 0; 1; 3] = Ok r /\
    keys (ar_clusters r) = [4; 0; 1; 3] /\
    In m [4; 0; 1; 3] /\ In x (nRange km5) /\ ~ In x [4; 0; 1; 3] /\
    map_get (ar_clusters r) m = Some [m; x] /\
    (forall m', In m' [4; 0; 1; 3] -> m' <> m ->
                map_get (ar_clusters r) m' = Some [m']).
Proof.
  apply (associate_all_but_one km5 5 [4; 0; 1; 3]).
  - exact km5_square.
  - discriminate.
  - repeat constructor; simpl; intuition lia.
  - intros x [<- | [<- | [<- | [<- | []]]]]; apply range_In; simpl; lia.
  - reflexivity.
  - simpl. lia.
Defined.

(** ** Refinement: every pass returns *)

Lemma square_engine_update (this : KMedoids) (m : list Z) (c : option Clustering) :
  square_engine this -> square_engine (with_clusters (with_medoids this m) c).
Proof. intros [H1 H2 H3]. constructor; simpl; assumption. Qed.

Lemma swap_body_total (fuel n : nat) (points : list Z) (medoid nonMedoid : Z)
  (st : RunState) :
  (n <= fuel)%nat -> In nonMedoid points -> refining n points st ->
  exists st', swap_body fuel medoid st nonMedoid = Ok st' /\ refining n points st'.
Proof.
  intros Hfuel Hnon (Hsq & Hn & Hp & Hne & Hnd & Hin).
  unfold swap_body. cbv zeta.
  set (newMedoids := set_add nonMedoid (set_delete medoid (medoids (this_ st)))).
  assert (Hnew : medoid_set (this_ st) newMedoids).
  { split.
    - apply set_add_NoDup, set_delete_NoDup, Hnd.
    - intros x Hx. apply set_add_In in Hx. destruct Hx as [-> | Hx].
      + rewrite Hp. exact Hnon.
      + apply set_delete_In in Hx. apply Hin. tauto. }
  assert (Hnonempty : newMedoids <> []).
  { intros E. assert (H : In nonMedoid newMedoids) by (apply set_add_In; auto).
    rewrite E in H. destruct H. }
  destruct (associate_total (this_ st) fuel newMedoids Hsq Hnonempty Hnew
              ltac:(lia)) as (ast & groups & _ & _ & _ & E).
  rewrite E. simpl.
  match goal with |- context [if ?b then _ else _] => destruct b end.
  - eexists. split; [reflexivity|].
    unfold refining. simpl.
    repeat match goal with |- _ /\ _ => split end; auto;
      solve [ apply square_engine_update; exact Hsq
            | exact (proj1 Hnew) | exact (proj2 Hnew) ].
  - exists st. split; [reflexivity|]. unfold refining, medoid_set. auto 10.
Qed.

Lemma getNonMedoids_In (this : KMedoids) (medoids : list Z) (x : Z) :
  In x (getNonMedoids this medoids) <-> In x (nRange this) /\ ~ In x medoids.
Proof.
  unfold getNonMedoids. rewrite filter_In, negb_true_iff, set_has_not_In. tauto.
Qed.

Lemma medoid_body_total (fuel n : nat) (points : list Z) (medoid : Z) (st : RunState) :
  (n <= fuel)%nat -> refining n points st ->
  exists st', medoid_body fuel st medoid = Ok st' /\ refining n points st'.
Proof.
  intros Hfuel Hst. unfold medoid_body.
  destruct (forEach_total (refining n points) (fun _ _ => True)
              (getNonMedoids (this_ st) (medoids (this_ st)))
              (swap_body fuel medoid)) with (s := st)
    as (st' & E & Hst' & _); auto.
  - intros s x Hx Hs.
    destruct (swap_body_total fuel n points medoid x s Hfuel) as (s' & Es & Hs');
      [|exact Hs|eauto].
    apply getNonMedoids_In in Hx. destruct Hst as (_ & _ & Hp & _).
    rewrite <- Hp. tauto.
  - eauto.
Qed.

Lemma run_pass_total (fuel n : nat) (points : list Z) (st : RunState) :
  (n <= fuel)%nat -> refining n points st ->
  exists st', run_pass fuel st = Ok st' /\ refining n points st'.
Proof.
  intros Hfuel Hst. unfold run_pass.
  destruct (forEach_total (refining n points) (fun _ _ => True)
              (medoids (this_ st)) (medoid_body fuel)) with (s := st)
    as (st' & E & Hst' & _); auto.
  - intros s x _ Hs.
    destruct (medoid_body_total fuel n points x s Hfuel Hs) as (s' & Es & Hs').
    eauto.
  - eauto.
Qed.

Lemma run_while_total (fuel n : nat) (points : list Z) (maxIterations : Z)
  (tolerance : Q) :
  (n <= fuel)%nat ->
  forall (passes : nat) (st : RunState) (iteration : Z),
    refining n points st ->
    (Z.to_nat (maxIterations - iteration) <= passes)%nat ->
    exists st' iteration',
      run_while passes fuel maxIterations tolerance st iteration
      = Ok (st', iteration') /\
      refining n points st' /\
      iteration <= iteration' <= Z.max iteration maxIterations.
Proof.
  intros Hfuel. induction passes as [|passes IH]; intros st it Hst Hp;
    cbn [run_while];
    destruct (num_ltb (Fin tolerance) (costChange st) && (it <? maxIterations))
      eqn:E.
  - apply andb_true_iff in E. destruct E as [_ E]. apply Z.ltb_lt in E. lia.
  - exists st, it. split; [reflexivity | split; [exact Hst | lia]].
  - apply andb_true_iff in E. destruct E as [_ E]. apply Z.ltb_lt in E.
    destruct (run_pass_total fuel n points (reset_costChange st) Hfuel)
      as (st1 & E1 & Hst1); [exact Hst|].
    rewrite E1. simpl.
    destruct (IH st1 (it + 1) Hst1 ltac:(lia)) as (st' & it' & E' & Hst' & Hit).
    exists st', it'. split; [exact E' | split; [exact Hst' | lia]].
  - exists st, it. split; [reflexivity | split; [exact Hst | lia]].
Qed.

(** C4: on an engine constructed from an n-by-n matrix with [0 < k < n] and
    a valid window, [run] returns for every [maxIterations >= 0] and every
    tolerance, after at most [maxIterations] passes of its outer loop. *)
Theorem run_terminates (dm : list (list Q)) (k : Z) (sp ep : Q) (this : KMedoids)
  (fuel : nat) (rand : nat -> nat) (maxIterations : Z) (tolerance : Q) :
  constructor dm k sp ep = inr this ->
  Forall (fun row => length row = length dm) dm ->
  0 < k -> 0 <= maxIterations ->
  (length dm <= fuel)%nat -> (Z.to_nat maxIterations <= fuel)%nat ->
  exists st passes,
    run_state fuel rand this maxIterations tolerance = Ok (st, passes) /\
    0 <= passes <= maxIterations /\
    run fuel rand this maxIterations tolerance = Ok (this_ st).
Proof.
  intros Hc Hrows Hk Hmax Hfuel Hpasses.
  destruct (constructor_square dm k sp ep this Hc Hrows)
    as (Hsq & Ek & Hkn & H0 & Hlt & H1).
  assert (Hn : nPoints this = length dm).
  { unfold constructor in Hc.
    destruct (negb _) in Hc; [discriminate|].
    destruct (negb _) in Hc; [discriminate|].
    inversion Hc; reflexivity. }
  destruct (initializeMedoids_total this fuel rand (sq_range _ Hsq) H0 Hlt H1)
    as (m & Em & Hnd & Hin & Hlen); [lia | lia |].
  set (this1 := with_medoids this m).
  assert (Hsq1 : square_engine this1).
  { destruct Hsq as [A B C]. constructor; simpl; assumption. }
  assert (Hne : m <> []) by (intros ->; simpl in Hlen; lia).
  destruct (associate_total this1 fuel m Hsq1 Hne (conj Hnd Hin))
    as (ast & groups & _ & _ & _ & Ea); [simpl; lia|].
  destruct (run_while_total fuel (nPoints this) (nRange this) maxIterations
              tolerance ltac:(lia) fuel
              {| this_ := this1;
                 currentCost :=
                   sum (map (fun g => num_div (distance_total this1 (fst g) (snd g))
                                              (S (length (snd g)))) groups);
                 costChange := PInf |} 0)
    as (st & passes & Er & _ & Hit).
  - unfold refining, medoid_set. simpl. auto 10.
  - lia.
  - assert (E : run_state fuel rand this maxIterations tolerance = Ok (st, passes)).
    { unfold run_state. rewrite Em. simpl. fold this1.
      change (medoids this1) with m. rewrite Ea. simpl. exact Er. }
    exists st, passes. split; [exact E|]. split; [lia|].
    unfold run. rewrite E. reflexivity.
Qed.

Lemma run_terminates_witness :
  exists st passes,
    run_state 10 zero_draws km5 10 (1 # 100) = Ok (st, passes) /\
    0 <= passes <= 10 /\
    run 10 zero_draws km5 10 (1 # 100) = Ok (this_ st).
Proof.
  apply (run_terminates line5 2 (90 # 100) (99 # 100) km5 10 zero_draws 10 (1 # 100)).
  - reflexivity.
  - repeat constructor.
  - lia.
  - lia.
  - simpl. lia.
  - simpl. lia.
Defined.

(** ** Refinement: the recorded cost *)

Lemma swap_body_cost (fuel : nat) (medoid nonMedoid : Z) (st st' : RunState) :
  swap_body fuel medoid st nonMedoid = Ok st' ->
  st' = st \/
  (num_ltb (currentCost st') (currentCost st) = true /\
   medoids (this_ st') = set_add nonMedoid (set_delete medoid (medoids (this_ st))) /\
   costChange st' = num_sub (currentCost st) (currentCost st')).
Proof.
  unfold swap_body. cbv zeta. intros H.
  apply bind_Ok in H. destruct H as (r & _ & H).
  destruct (num_ltb (configurationCost r) (currentCost st)) eqn:E;
    inversion H; subst; clear H; [right | left; reflexivity].
  simpl. auto.
Qed.

Lemma cost_steps_trans (fuel : nat) (a b c : RunState) :
  cost_steps fuel a b -> cost_steps fuel b c -> cost_steps fuel a c.
Proof.
  induction 1 as [st | st st' _ IH | st st1 st' medoid nonMedoid E _ IH];
    intros Hc.
  - exact Hc.
  - apply steps_reset. apply IH. exact Hc.
  - eapply steps_swap; [exact E | apply IH; exact Hc].
Qed.

Lemma cost_steps_le (fuel : nat) (a b : RunState) :
  cost_steps fuel a b -> num_le (currentCost b) (currentCost a).
Proof.
  induction 1 as [st | st st' _ IH | st st1 st' medoid nonMedoid E _ IH].
  - apply num_le_refl.
  - exact IH.
  - eapply num_le_trans; [exact IH|].
    destruct (swap_body_cost _ _ _ _ _ E) as [-> | [Hlt _]];
      [apply num_le_refl | right; exact Hlt].
Qed.

Lemma medoid_body_steps (fuel : nat) (medoid : Z) (st st' : RunState) :
  medoid_body fuel st medoid = Ok st' -> cost_steps fuel st st'.
Proof.
  unfold medoid_body.
  apply (forEach_partial (cost_steps fuel)).
  - apply steps_done.
  - apply cost_steps_trans.
  - intros s x s' E. eapply steps_swap; [exact E | apply steps_done].
Qed.

Lemma run_pass_steps (fuel : nat) (st st' : RunState) :
  run_pass fuel st = Ok st' -> cost_steps fuel st st'.
Proof.
  unfold run_pass.
  apply (forEach_partial (cost_steps fuel)).
  - apply steps_done.
  - apply cost_steps_trans.
  - intros s x s'. apply medoid_body_steps.
Qed.

Lemma run_while_steps (fuel : nat) (maxIterations : Z) (tolerance : Q) :
  forall (passes : nat) (st : RunState) (iteration : Z) (st' : RunState)
         (iteration' : Z),
    run_while passes fuel maxIterations tolerance st iteration
    = Ok (st', iteration') ->
    cost_steps fuel st st'.
Proof.
  induction passes as [|passes IH]; intros st it st' it' H; cbn [run_while] in H;
    destruct (num_ltb (Fin tolerance) (costChange st) && (it <? maxIterations));
    try discriminate.
  - inversion H; subst. apply steps_done.
  - apply bind_Ok in H. destruct H as (st1 & E1 & H).
    apply steps_reset.
    eapply cost_steps_trans; [apply run_pass_steps; exact E1 | eapply IH; exact H].
  - inversion H; subst. apply steps_done.
Qed.

(** C5: the refinement loop only resets [costChange] and evaluates candidate
    swaps; a candidate is recorded only when its cost is strictly below the
    current one, so each evaluation leaves the state alone or strictly lowers
    the recorded cost, and the cost the loop ends with is at most the one it
    started with. *)
Theorem refinement_cost_non_increasing (passes fuel : nat) (maxIterations : Z)
  (tolerance : Q) (st st' : RunState) (iteration iteration' : Z) :
  run_while passes fuel maxIterations tolerance st iteration
  = Ok (st', iteration') ->
  cost_steps fuel st st' /\
  num_le (currentCost st') (currentCost st) /\
  (forall a b, cost_steps fuel a b -> num_le (currentCost b) (currentCost a)) /\
  (forall medoid nonMedoid a b,
     swap_body fuel medoid a nonMedoid = Ok b ->
     b = a \/
     (num_ltb (currentCost b) (currentCost a) = true /\
      medoids (this_ b) = set_add nonMedoid (set_delete medoid (medoids (this_ a))) /\
      costChange b = num_sub (currentCost a) (currentCost b))).
Proof.
  intros H. apply run_while_steps in H.
  split; [exact H|]. split; [apply (cost_steps_le fuel); exact H|].
  split; [apply cost_steps_le | intros; apply (swap_body_cost fuel); assumption].
Qed.

Lemma refinement_cost_non_increasing_witness :
  cost_steps 5 wide_start wide_end /\
  num_le (currentCost wide_end) (currentCost wide_start) /\
  (forall a b, cost_steps 5 a b -> num_le (currentCost b) (currentCost a)) /\
  (forall medoid nonMedoid a b,
     swap_body 5 medoid a nonMedoid = Ok b ->
     b = a \/
     (num_ltb (currentCost b) (currentCost a) = true /\
      medoids (this_ b) = set_add nonMedoid (set_delete medoid (medoids (this_ a))) /\
      costChange b = num_sub (currentCost a) (currentCost b))).
Proof.
  apply (refinement_cost_non_increasing 5 5 10 (1 # 100) wide_start wide_end 0 2).
  vm_compute. reflexivity.
Defined.

(** ** Refinement: what [run] leaves in the engine *)

Lemma run_while_no_pass (passes fuel : nat) (maxIterations : Z) (tolerance : Q)
  (st : RunState) (iteration : Z) :
  maxIterations <= iteration ->
  run_while passes fuel maxIterations tolerance st iteration = Ok (st, iteration).
Proof.
  intros H.
  assert (E : (iteration <? maxIterations) = false) by (apply Z.ltb_ge; exact H).
  destruct passes; cbn [run_while]; rewrite E, andb_false_r; reflexivity.
Qed.

(** With no pass allowed, [run] returns with [clusters] as it found it:
    the clustering of the seeds is computed and dropped. *)
Lemma run_no_pass_keeps_clusters (fuel : nat) (rand : nat -> nat) (this e : KMedoids)
  (maxIterations : Z) (tolerance : Q) :
  maxIterations <= 0 ->
  run fuel rand this maxIterations tolerance = Ok e -> clusters e = clusters this.
Proof.
  intros Hmax H. unfold run, run_state in H.
  apply bind_Ok in H. destruct H as ([st it] & H & E).
  apply bind_Ok in H. destruct H as (m & _ & H).
  apply bind_Ok in H. destruct H as (r & _ & H).
  rewrite run_while_no_pass in H by exact Hmax.
  inversion H; subst. inversion E; subst. reflexivity.
Qed.

(** C1 (the code departs from it): on the demonstration matrix with [k = 2],
    [run] with [maxIterations = 0] seeds the medoids [0] and [4] and returns
    with [clusters] still unset; and since no swap improves on these seeds,
    the same holds after the default ten passes. *)
Theorem run_leaves_clusters_unset :
  constructor line5 2 (90 # 100) (99 # 100) = inr km5 /\
  (exists e, run 5 zero_draws km5 0 (1 # 100) = Ok e /\
             medoids e = [0; 4] /\ clusters e = None) /\
  (exists e, run 5 zero_draws km5 10 (1 # 100) = Ok e /\
             medoids e = [0; 4] /\ clusters e = None).
Proof.
  split; [reflexivity|].
  split; eexists; (split; [vm_compute; reflexivity | split; reflexivity]).
Qed.

(** C3 (the code departs from it): on the demonstration matrix with [k = 2]
    and the window [0, 1], the seeds are [0] and [1].  While the inner loop
    runs for medoid [0] over the non-medoids [2, 3, 4], the swap of [0] for
    [2] is accepted; the next candidate is built from the new medoids [1, 2]
    by deleting [0], which is no longer there, and adding [3]: it has three
    members, and is accepted too.  [run] ends with four medoids. *)
Theorem run_candidate_outgrows_k :
  constructor line5 2 0 1 = inr km5_wide /\
  exists s0 s1 s2 st passes,
    run_state 5 zero_draws km5_wide 0 (1 # 100) = Ok (s0, 0) /\
    medoids (this_ s0) = [0; 1] /\
    getNonMedoids (this_ s0) (medoids (this_ s0)) = [2; 3; 4] /\
    swap_body 5 0 (reset_costChange s0) 2 = Ok s1 /\
    medoids (this_ s1) = [1; 2] /\
    swap_body 5 0 s1 3 = Ok s2 /\
    medoids (this_ s2) = [1; 2; 3] /\
    run_state 5 zero_draws km5_wide 10 (1 # 100) = Ok (st, passes) /\
    medoids (this_ st) = [1; 2; 3; 4] /\
    nClusters (this_ st) = 2.
Proof.
  split; [reflexivity|].
  do 5 eexists.
  split; [vm_compute; reflexivity|].
  split; [reflexivity|].
  split; [reflexivity|].
  split; [vm_compute; reflexivity|].
  split; [reflexivity|].
  split; [vm_compute; reflexivity|].
  split; [reflexivity|].
  split; [vm_compute; reflexivity|].
  split; reflexivity.
Qed.

(** * Further properties of the engine *)

(** ** Nearest-medoid and nearest-point scans *)

(** Both queries run the same scan: keep a record of the nearest candidate
    so far, replace it when a candidate is strictly nearer.  [dist] and [who]
    read the record, [mk] builds it, [f] is the distance of a candidate. *)
Section NearestScan.
Variables (R W : Type) (dist : R -> num) (who : R -> W).
Variables (mk : Z -> num -> R) (inj : Z -> W) (f : Z -> num).
Hypothesis dist_mk : forall x d, dist (mk x d) = d.
Hypothesis who_mk : forall x d, who (mk x d) = inj x.

Lemma nearest_scan_keeps_bound (l : list Z) (acc : R) (y : num) :
  num_ltb y (dist acc) = false ->
  num_ltb y
    (dist (fold_left
             (fun acc x => if num_ltb (f x) (dist acc) then mk x (f x) else acc)
             l acc)) = false.
Proof.
  revert acc. induction l as [|x l IH]; intros acc Hy; simpl; [exact Hy|].
  apply IH. destruct (num_ltb (f x) (dist acc)) eqn:E; [|exact Hy].
  rewrite dist_mk. destruct (num_ltb y (f x)) eqn:E'; [|reflexivity].
  rewrite (num_ltb_trans _ _ _ E' E) in Hy. discriminate.
Qed.

Lemma nearest_scan_minimal (l : list Z) (acc : R) (x : Z) :
  In x l ->
  num_ltb (f x)
    (dist (fold_left
             (fun acc x => if num_ltb (f x) (dist acc) then mk x (f x) else acc)
             l acc)) = false.
Proof.
  revert acc. induction l as [|y l IH]; intros acc Hx; [destruct Hx|].
  simpl. destruct Hx as [-> | Hx]; [|apply IH; exact Hx].
  apply nearest_scan_keeps_bound.
  destruct (num_ltb (f x) (dist acc)) eqn:E; [|exact E].
  rewrite dist_mk. apply num_ltb_irrefl.
Qed.

Lemma nearest_scan_result (l : list Z) (acc : R) :
  fold_left (fun acc x => if num_ltb (f x) (dist acc) then mk x (f x) else acc)
            l acc = acc \/
  exists x, In x l /\
    fold_left (fun acc x => if num_ltb (f x) (dist acc) then mk x (f x) else acc)
              l acc = mk x (f x).
Proof.
  revert acc. induction l as [|y l IH]; intros acc; simpl; [left; reflexivity|].
  destruct (IH (if num_ltb (f y) (dist acc) then mk y (f y) else acc))
    as [E | (x & Hx & E)].
  - rewrite E. destruct (num_ltb (f y) (dist acc)); [|left; reflexivity].
    right. exists y. split; [left; reflexivity | reflexivity].
  - right. exists x. split; [right; exact Hx | exact E].
Qed.

(** On finite distances the scan returns the first candidate at the least
    distance: every candidate before it is strictly farther, none after it
    is nearer. *)
Lemma nearest_scan_first (l : list Z) (acc : R) :
  (forall x, In x l -> exists q, f x = Fin q) -> l <> [] -> dist acc = PInf ->
  exists l1 x l2 q,
    l = l1 ++ x :: l2 /\ f x = Fin q /\
    fold_left (fun acc x => if num_ltb (f x) (dist acc) then mk x (f x) else acc)
              l acc = mk x (Fin q) /\
    (forall y, In y l1 -> num_ltb (Fin q) (f y) = true) /\
    (forall y, In y l2 -> num_ltb (f y) (Fin q) = false).
Proof.
  intros Hfin Hne Hinf. induction l as [|z l IH] using rev_ind; [congruence|].
  clear Hne. rewrite fold_left_app. simpl.
  destruct (Hfin z) as [qz Hz]; [apply in_app_iff; right; left; reflexivity|].
  assert (Hl : l = [] \/ l <> []) by (destruct l; [left | right]; congruence).
  destruct Hl as [-> | Hl].
  - simpl. rewrite Hinf, Hz. simpl.
    exists [], z, [], qz. repeat split; try assumption; intros y [].
  - destruct IH as (l1 & x & l2 & q & El & Hx & Ef & Hbefore & Hafter);
      [intros y Hy; apply Hfin, in_app_iff; left; exact Hy | exact Hl |].
    rewrite Ef, dist_mk, Hz. simpl.
    destruct (Qltb qz q) eqn:E.
    + exists l, z, [], qz.
      repeat split; try assumption; [| intros y []].
      intros y Hy. apply Qltb_lt in E. rewrite El in Hy.
      apply in_app_iff in Hy. destruct Hy as [Hy | [<- | Hy]].
      * specialize (Hbefore y Hy).
        destruct (Hfin y) as [qy Ey];
          [rewrite El; apply in_app_iff; left; apply in_app_iff; left; exact Hy|].
        rewrite Ey in *. simpl in *. apply Qltb_lt in Hbefore.
        apply Qltb_lt. eapply Qlt_trans; eassumption.
      * rewrite Hx. simpl. apply Qltb_lt. exact E.
      * specialize (Hafter y Hy).
        destruct (Hfin y) as [qy Ey];
          [rewrite El; apply in_app_iff; left; apply in_app_iff; right; right;
           exact Hy|].
        rewrite Ey in *. simpl in *. apply Qltb_ge in Hafter.
        apply Qltb_lt. eapply Qlt_le_trans; eassumption.
    + exists l1, x, (l2 ++ [z]), q. rewrite El, <- app_assoc. simpl.
      repeat split; try assumption.
      intros y Hy. apply in_app_iff in Hy. destruct Hy as [Hy | [<- | []]].
      * apply Hafter. exact Hy.
      * rewrite Hz. simpl. exact E.
Qed.
End NearestScan.

(** X1: for a point that is a row of the matrix, [getClosestMedoid] returns
    a distance no medoid of the set beats, and either the placeholder [-1]
    at distance [Infinity] (always so for the empty set) or a medoid of the
    set together with its own distance to the point. *)
Theorem getClosestMedoid_nearest (this : KMedoids) (medoids : list Z) (point : Z) :
  0 <= point < Z.of_nat (length (distanceMatrix this)) ->
  (forall m, In m medoids ->
     num_ltb (getDistance this point m)
             (cm_distance (getClosestMedoid this medoids point)) = false) /\
  ((cm_medoid (getClosestMedoid this medoids point) = -1 /\
    cm_distance (getClosestMedoid this medoids point) = PInf) \/
   (In (cm_medoid (getClosestMedoid this medoids point)) medoids /\
    cm_distance (getClosestMedoid this medoids point) =
    getDistance this point (cm_medoid (getClosestMedoid this medoids point)))).
Proof.
  intros _. split.
  - intros m Hm.
    exact (nearest_scan_minimal ClosestMedoid cm_distance mkClosestMedoid
             (fun m => getDistance this point m) (fun _ _ => eq_refl)
             medoids {| cm_medoid := -1; cm_distance := PInf |} m Hm).
  - destruct (nearest_scan_result ClosestMedoid cm_distance mkClosestMedoid
                (fun m => getDistance this point m)
                medoids {| cm_medoid := -1; cm_distance := PInf |})
      as [E | (x & Hx & E)].
    + left. unfold getClosestMedoid. cbv zeta. rewrite E. split; reflexivity.
    + right. unfold getClosestMedoid. cbv zeta. rewrite E. simpl.
      split; [exact Hx | reflexivity].
Qed.

Lemma getClosestMedoid_nearest_witness :
  (forall m, In m [0; 4] ->
     num_ltb (getDistance km5 2 m)
             (cm_distance (getClosestMedoid km5 [0; 4] 2)) = false) /\
  ((cm_medoid (getClosestMedoid km5 [0; 4] 2) = -1 /\
    cm_distance (getClosestMedoid km5 [0; 4] 2) = PInf) \/
   (In (cm_medoid (getClosestMedoid km5 [0; 4] 2)) [0; 4] /\
    cm_distance (getClosestMedoid km5 [0; 4] 2) =
    getDistance km5 2 (cm_medoid (getClosestMedoid km5 [0; 4] 2)))).
Proof.
  apply (getClosestMedoid_nearest km5 [0; 4] 2). simpl. lia.
Defined.

(** X2: on a square matrix, for a point and a non-empty list of medoids in
    range, [getClosestMedoid] returns the first medoid, in iteration order,
    at the least distance: the medoids before it are strictly farther from
    the point, the ones after it are not nearer. *)
Theorem getClosestMedoid_first_nearest (this : KMedoids) (medoids : list Z)
  (point : Z) :
  square_engine this -> In point (nRange this) ->
  incl medoids (nRange this) -> medoids <> [] ->
  exists l1 l2 q,
    medoids = l1 ++ cm_medoid (getClosestMedoid this medoids point) :: l2 /\
    cm_distance (getClosestMedoid this medoids point) = Fin q /\
    getDistance this point (cm_medoid (getClosestMedoid this medoids point))
    = Fin q /\
    (forall m, In m l1 -> num_ltb (Fin q) (getDistance this point m) = true) /\
    (forall m, In m l2 -> num_ltb (getDistance this point m) (Fin q) = false).
Proof.
  intros Hsq Hp Hin Hne.
  destruct (nearest_scan_first ClosestMedoid cm_distance mkClosestMedoid
              (fun m => getDistance this point m) (fun _ _ => eq_refl)
              medoids {| cm_medoid := -1; cm_distance := PInf |})
    as (l1 & x & l2 & q & El & Hx & E & Hb & Ha).
  - intros m Hm. apply getDistance_Fin; auto.
  - exact Hne.
  - reflexivity.
  - exists l1, l2, q. unfold getClosestMedoid. cbv zeta. rewrite E. simpl.
    repeat split; assumption.
Qed.

Lemma getClosestMedoid_first_nearest_witness :
  exists l1 l2 q,
    [0; 4; 2] = l1 ++ cm_medoid (getClosestMedoid km5 [0; 4; 2] 1) :: l2 /\
    cm_distance (getClosestMedoid km5 [0; 4; 2] 1) = Fin q /\
    getDistance km5 1 (cm_medoid (getClosestMedoid km5 [0; 4; 2] 1)) = Fin q /\
    (forall m, In m l1 -> num_ltb (Fin q) (getDistance km5 1 m) = true) /\
    (forall m, In m l2 -> num_ltb (getDistance km5 1 m) (Fin q) = false).
Proof.
  apply (getClosestMedoid_first_nearest km5 [0; 4; 2] 1).
  - exact km5_square.
  - apply range_In. simpl. lia.
  - intros x [<- | [<- | [<- | []]]]; apply range_In; simpl; lia.
  - discriminate.
Defined.

(** X3: [getClosestPoint] never returns a point of the exception set or one
    outside the range; it returns either no point at distance [Infinity] or
    an eligible point with its own distance to the medoid, and no eligible
    point is strictly nearer than the distance returned. *)
Theorem getClosestPoint_nearest (this : KMedoids) (medoid : Z) (exception : list Z) :
  (forall p, In p (nRange this) -> ~ In p exception ->
     num_ltb (getDistance this p medoid)
             (cp_distance (getClosestPoint this medoid exception)) = false) /\
  ((cp_point (getClosestPoint this medoid exception) = None /\
    cp_distance (getClosestPoint this medoid exception) = PInf) \/
   (exists p, cp_point (getClosestPoint this medoid exception) = Some p /\
              In p (nRange this) /\ ~ In p exception /\
              cp_distance (getClosestPoint this medoid exception)
              = getDistance this p medoid)).
Proof.
  split.
  - intros p Hp Hx.
    apply (nearest_scan_minimal ClosestPoint cp_distance
             (fun p d => mkClosestPoint (Some p) d)
             (fun p => getDistance this p medoid) (fun _ _ => eq_refl)).
    apply filter_In. split; [exact Hp|].
    apply negb_true_iff, set_has_not_In. exact Hx.
  - destruct (nearest_scan_result ClosestPoint cp_distance
                (fun p d => mkClosestPoint (Some p) d)
                (fun p => getDistance this p medoid)
                (filter (fun x => negb (set_has exception x)) (nRange this))
                {| cp_point := None; cp_distance := PInf |})
      as [E | (x & Hx & E)].
    + left. unfold getClosestPoint. cbv zeta. rewrite E. split; reflexivity.
    + right. exists x. unfold getClosestPoint. cbv zeta. rewrite E. simpl.
      apply filter_In in Hx. destruct Hx as [Hr Hx].
      repeat split; try assumption.
      apply set_has_not_In, negb_true_iff. exact Hx.
Qed.

(** X4: on a square matrix and for a medoid in range, [getClosestPoint]
    returns no point exactly when every point is in the exception set;
    otherwise it returns the first eligible point, in range order, at the
    least distance to the medoid. *)
Theorem getClosestPoint_first_nearest (this : KMedoids) (medoid : Z)
  (exception : list Z) :
  square_engine this -> In medoid (nRange this) ->
  (cp_point (getClosestPoint this medoid exception) = None <->
   incl (nRange this) exception) /\
  (~ incl (nRange this) exception ->
   exists l1 p l2 q,
     filter (fun x => negb (set_has exception x)) (nRange this) = l1 ++ p :: l2 /\
     cp_point (getClosestPoint this medoid exception) = Some p /\
     cp_distance (getClosestPoint this medoid exception) = Fin q /\
     getDistance this p medoid = Fin q /\
     (forall y, In y l1 -> num_ltb (Fin q) (getDistance this y medoid) = true) /\
     (forall y, In y l2 -> num_ltb (getDistance this y medoid) (Fin q) = false)).
Proof.
  intros Hsq Hm.
  assert (Hnone : cp_point (getClosestPoint this medoid exception) = None <->
                  incl (nRange this) exception).
  { split.
    - intros E p Hp. destruct (in_dec Z.eq_dec p exception) as [Hx | Hx];
        [exact Hx | exfalso].
      destruct (getClosestPoint_found this medoid exception p Hsq Hm Hp Hx)
        as [p' E']. congruence.
    - intros Hall.
      destruct (cp_point (getClosestPoint this medoid exception)) as [p|] eqn:E;
        [exfalso | reflexivity].
      apply getClosestPoint_Some in E. destruct E as (Hp & Hx & _).
      apply Hx, Hall, Hp. }
  split; [exact Hnone|].
  intros Hsome.
  set (eligible := filter (fun x => negb (set_has exception x)) (nRange this)).
  assert (Hel : forall x, In x eligible -> In x (nRange this)).
  { intros x Hx. apply filter_In in Hx. tauto. }
  destruct (nearest_scan_first ClosestPoint cp_distance
              (fun p d => mkClosestPoint (Some p) d)
              (fun p => getDistance this p medoid) (fun _ _ => eq_refl)
              eligible {| cp_point := None; cp_distance := PInf |})
    as (l1 & x & l2 & q & El & Hx & E & Hb & Ha).
  - intros x Hx. apply getDistance_Fin; auto.
  - intros Hempty. apply Hsome. intros p Hp.
    destruct (in_dec Z.eq_dec p exception) as [Hx | Hx]; [exact Hx | exfalso].
    assert (Hin : In p eligible).
    { apply filter_In. split; [exact Hp|].
      apply negb_true_iff, set_has_not_In. exact Hx. }
    rewrite Hempty in Hin. destruct Hin.
  - reflexivity.
  - exists l1, x, l2, q. unfold getClosestPoint. cbv zeta. fold eligible.
    rewrite E. simpl. repeat split; assumption.
Qed.

Lemma getClosestPoint_first_nearest_witness :
  (cp_point (getClosestPoint km5 2 [2; 1]) = None <-> incl (nRange km5) [2; 1]) /\
  (~ incl (nRange km5) [2; 1] ->
   exists l1 p l2 q,
     filter (fun x => negb (set_has [2; 1] x)) (nRange km5) = l1 ++ p :: l2 /\
     cp_point (getClosestPoint km5 2 [2; 1]) = Some p /\
     cp_distance (getClosestPoint km5 2 [2; 1]) = Fin q /\
     getDistance km5 p 2 = Fin q /\
     (forall y, In y l1 -> num_ltb (Fin q) (getDistance km5 y 2) = true) /\
     (forall y, In y l2 -> num_ltb (getDistance km5 y 2) (Fin q) = false)).
Proof.
  apply (getClosestPoint_first_nearest km5 2 [2; 1]).
  - exact km5_square.
  - apply range_In. simpl. lia.
Defined.

(** ** Non-medoids *)

(** X5: for distinct medoids in range, [getNonMedoids] lists, without
    repetition, exactly the points of the range that are not medoids: there
    are [n - |medoids|] of them. *)
Theorem getNonMedoids_complement (this : KMedoids) (medoids : list Z) :
  nRange this = range (nPoints this) -> NoDup medoids ->
  incl medoids (nRange this) ->
  NoDup (getNonMedoids this medoids) /\
  (forall x, In x (getNonMedoids this medoids) <->
             In x (nRange this) /\ ~ In x medoids) /\
  (length (getNonMedoids this medoids) + length medoids = nPoints this)%nat.
Proof.
  intros Hr Hnd Hin.
  assert (Hnd' : NoDup (getNonMedoids this medoids)).
  { unfold getNonMedoids. apply NoDup_filter. rewrite Hr. apply range_NoDup. }
  split; [exact Hnd'|]. split; [apply getNonMedoids_In|].
  rewrite <- (range_length (nPoints this)), <- Hr, Nat.add_comm, <- length_app.
  apply Permutation_length. apply NoDup_Permutation.
  - apply NoDup_app; [exact Hnd | exact Hnd' |].
    intros x Hx Hx'. apply getNonMedoids_In in Hx'. tauto.
  - rewrite Hr. apply range_NoDup.
  - intros x. rewrite in_app_iff, getNonMedoids_In. split.
    + intros [H | [H _]]; auto.
    + intros H. destruct (in_dec Z.eq_dec x medoids); auto.
Qed.

Lemma getNonMedoids_complement_witness :
  NoDup (getNonMedoids km5 [4; 1]) /\
  (forall x, In x (getNonMedoids km5 [4; 1]) <->
             In x (nRange km5) /\ ~ In x [4; 1]) /\
  (length (getNonMedoids km5 [4%Z; 1%Z]) + length [4%Z; 1%Z] = nPoints km5)%nat.
Proof.
  apply (getNonMedoids_complement km5 [4; 1]).
  - reflexivity.
  - repeat constructor; simpl; intuition lia.
  - intros x [<- | [<- | []]]; apply range_In; simpl; lia.
Defined.

(** ** Assignment: the sizes of the clusters *)

Lemma split_key_unique {V : Type} (l1 l1' l2 l2' : list (Z * V)) (k : Z) (v v' : V) :
  ~ In k (keys l1) -> ~ In k (keys l1') ->
  l1 ++ (k, v) :: l2 = l1' ++ (k, v') :: l2' ->
  l1 = l1' /\ v = v' /\ l2 = l2'.
Proof.
  revert l1'. induction l1 as [|[k0 v0] l1 IH]; intros [|[k1 v1] l1'] H1 H2 E;
    simpl in *.
  - inversion E; subst. auto.
  - inversion E; subst. tauto.
  - inversion E; subst. tauto.
  - inversion E; subst.
    destruct (IH l1') as (-> & -> & ->); auto.
Qed.

Lemma group_sizes_repeat (c : nat) (groups : list (Z * list Z)) :
  Forall (fun g => length (snd g) = c) groups ->
  map (fun cl : Z * list Z => length (snd cl)) (map group_cluster groups)
  = repeat (S c) (length groups).
Proof.
  induction 1 as [|g groups Hg _ IH]; simpl; [reflexivity|].
  rewrite Hg, IH. reflexivity.
Qed.

Lemma group_sizes_total (c : nat) (groups : list (Z * list Z)) :
  Forall (fun g => length (snd g) = c) groups ->
  length (concat (map snd groups)) = (c * length groups)%nat.
Proof.
  induction 1 as [|g groups Hg _ IH]; simpl; [lia|].
  rewrite length_app, Hg, IH. lia.
Qed.

(** One pass of the loop hands one point to each medoid in turn, until the
    points run out. *)
Lemma assoc_pass_round_robin (this : KMedoids) (medoids : list Z) (q : nat) :
  square_engine this -> NoDup medoids ->
  forall (gsuf gpre : list (Z * list Z)) (st : AssocState),
    assoc_inv this medoids (gpre ++ gsuf) st ->
    Forall (fun g => length (snd g) = S q) gpre ->
    Forall (fun g => length (snd g) = q) gsuf ->
    exists st' g1 g2,
      forEach (map fst gsuf) (assoc_body this) st = Ok st' /\
      assoc_inv this medoids (g1 ++ g2) st' /\
      Forall (fun g => length (snd g) = S q) g1 /\
      Forall (fun g => length (snd g) = q) g2 /\
      (g2 = [] \/ as_associatedPoints st' = nPoints this).
Proof.
  intros Hsq Hnd. induction gsuf as [|[m a] gsuf IH]; intros gpre st Hinv Hpre Hsuf.
  - simpl. exists st, gpre, []. auto 10.
  - assert (Hkeys : map fst (gpre ++ (m, a) :: gsuf) = medoids)
      by exact (ai_keys _ _ _ _ Hinv).
    assert (Hsub : incl (map fst ((m, a) :: gsuf)) medoids).
    { intros x Hx. rewrite <- Hkeys, map_app. apply in_app_iff. right. exact Hx. }
    assert (Hfresh : ~ In m (keys gpre)).
    { rewrite <- Hkeys, map_app in Hnd. simpl in Hnd.
      apply NoDup_remove_2 in Hnd. rewrite in_app_iff in Hnd.
      unfold keys. tauto. }
    destruct (assoc_body_step this medoids _ st m Hsq Hinv
                (Hsub m (or_introl eq_refl)))
      as [[Hfull E] | (p & h1 & a' & h2 & st1 & Eg & Hh1 & _ & _ & E1 & Hinv1 & _)].
    + exists st, gpre, ((m, a) :: gsuf).
      split; [|auto 10].
      apply forEach_unchanged. intros y Hy.
      apply (assoc_body_full this medoids _ st y Hsq Hinv (Hsub y Hy) Hfull).
    + destruct (split_key_unique _ _ _ _ _ _ _ Hfresh Hh1 Eg) as (<- & <- & <-).
      apply Forall_cons_iff in Hsuf. destruct Hsuf as [Ha Hsuf']. simpl in Ha.
      replace (gpre ++ (m, a ++ [p]) :: gsuf)
        with ((gpre ++ [(m, a ++ [p])]) ++ gsuf) in Hinv1
        by (rewrite <- app_assoc; reflexivity).
      destruct (IH (gpre ++ [(m, a ++ [p])]) st1 Hinv1)
        as (st' & g1 & g2 & E' & Hinv' & H1 & H2 & Hend).
      * apply Forall_app. split; [exact Hpre|].
        constructor; [|constructor]. simpl. rewrite length_app. simpl. lia.
      * exact Hsuf'.
      * exists st', g1, g2. simpl. rewrite E1. simpl. auto 10.
Qed.

Lemma assoc_while_round_robin (this : KMedoids) (medoids : list Z) :
  square_engine this -> NoDup medoids -> medoids <> [] ->
  forall (fuel : nat) (st st' : AssocState) (groups : list (Z * list Z)) (q : nat),
    assoc_while fuel this medoids st = Ok st' ->
    assoc_inv this medoids groups st ->
    Forall (fun g => length (snd g) = q) groups ->
    exists q' g1 g2,
      assoc_inv this medoids (g1 ++ g2) st' /\
      Forall (fun g => length (snd g) = S q') g1 /\
      Forall (fun g => length (snd g) = q') g2 /\
      g2 <> [] /\ as_associatedPoints st' = nPoints this.
Proof.
  intros Hsq Hnd Hne.
  assert (Hstop : forall st groups q,
            as_associatedPoints st = nPoints this ->
            assoc_inv this medoids groups st ->
            Forall (fun g => length (snd g) = q) groups ->
            exists q' g1 g2,
              assoc_inv this medoids (g1 ++ g2) st /\
              Forall (fun g => length (snd g) = S q') g1 /\
              Forall (fun g => length (snd g) = q') g2 /\
              g2 <> [] /\ as_associatedPoints st = nPoints this).
  { intros st groups q Hc Hinv Hq. exists q, [], groups. simpl.
    split; [exact Hinv | split; [constructor | split; [exact Hq | split; [|exact Hc]]]].
    intros ->. apply Hne. rewrite <- (ai_keys _ _ _ _ Hinv). reflexivity. }
  induction fuel as [|fuel IH]; intros st st' groups q H Hinv Hq; simpl in H;
    destruct (Nat.eqb (as_associatedPoints st) (nPoints this)) eqn:E;
    try discriminate.
  - inversion H; subst. apply Nat.eqb_eq in E. eapply Hstop; eassumption.
  - inversion H; subst. apply Nat.eqb_eq in E. eapply Hstop; eassumption.
  - apply bind_Ok in H. destruct H as (st1 & E1 & H).
    destruct (assoc_pass_round_robin this medoids q Hsq Hnd groups [] st Hinv)
      as (st1' & g1 & g2 & E1' & Hinv1 & H1 & H2 & Hend); [constructor | exact Hq |].
    rewrite (ai_keys _ _ _ _ Hinv) in E1'. rewrite E1 in E1'.
    inversion E1'; subst st1'. clear E1'.
    destruct g2 as [|g g2].
    + rewrite app_nil_r in Hinv1. eapply IH; eassumption.
    + destruct Hend as [Hend | Hend]; [discriminate|].
      rewrite (assoc_while_done fuel this medoids st1 Hend) in H.
      inversion H; subst st'.
      exists q, g1, (g :: g2).
      split; [exact Hinv1 | split; [exact H1 | split; [exact H2 | split; [discriminate | exact Hend]]]].
Qed.

(** X6: the assignment is a round robin, so the sizes of the clusters depend
    on [n] and on the number [k] of medoids only: in iteration order, the
    first [n mod k] clusters have [n / k + 1] members and the others have
    [n / k]. *)
Theorem associate_cluster_sizes (this : KMedoids) (fuel : nat) (medoids : list Z) :
  square_engine this -> medoids <> [] -> NoDup medoids ->
  incl medoids (nRange this) -> (nPoints this <= fuel)%nat ->
  exists r,
    associateMedoidsToClosestPoint fuel this medoids = Ok r /\
    map (fun cl : Z * list Z => length (snd cl)) (ar_clusters r)
    = repeat (S (nPoints this / length medoids))%nat
             (nPoints this mod length medoids)%nat
      ++ repeat (nPoints this / length medoids)%nat
                (length medoids - nPoints this mod length medoids)%nat.
Proof.
  intros Hsq Hne Hnd Hin Hfuel.
  destruct (associate_total this fuel medoids Hsq Hne (conj Hnd Hin) Hfuel)
    as (st & groups & Ew & _ & _ & E).
  eexists. split; [exact E|]. simpl.
  destruct (assoc_while_round_robin this medoids Hsq Hnd Hne fuel _ st _ 0%nat Ew
              (assoc_init_inv this medoids (conj Hnd Hin)))
    as (q & g1 & g2 & Hinv & H1 & H2 & Hg2 & Hc).
  { apply Forall_forall. intros g Hg. apply in_map_iff in Hg.
    destruct Hg as (m & <- & _). reflexivity. }
  assert (Hk : length medoids = (length g1 + length g2)%nat).
  { rewrite <- (ai_keys _ _ _ _ Hinv), length_map, length_app. reflexivity. }
  assert (Hn : nPoints this
               = (length medoids * S q + length g1)%nat).
  { rewrite <- Hc, (ai_count _ _ _ _ Hinv),
      (Permutation_length (ai_perm _ _ _ _ Hinv)), length_app, map_app,
      concat_app, length_app, (group_sizes_total _ _ H1),
      (group_sizes_total _ _ H2), Hk. lia. }
  assert (Hlt : (length g1 < length medoids)%nat).
  { destruct g2; [congruence | simpl in Hk; lia]. }
  assert (Hdiv : (nPoints this / length medoids = S q)%nat).
  { symmetry. apply (Nat.div_unique _ _ _ (length g1)); [exact Hlt | exact Hn]. }
  assert (Hmod : (nPoints this mod length medoids = length g1)%nat).
  { symmetry. apply (Nat.mod_unique _ _ (S q)); [exact Hlt | exact Hn]. }
  rewrite Hdiv, Hmod, (ai_clusters _ _ _ _ Hinv), map_app, map_app.
  rewrite (group_sizes_repeat _ _ H1), (group_sizes_repeat _ _ H2).
  replace (length medoids - length g1)%nat with (length g2) by lia.
  reflexivity.
Qed.

Lemma associate_cluster_sizes_witness :
  exists r,
    associateMedoidsToClosestPoint 5 km5 [4; 1] = Ok r /\
    map (fun cl : Z * list Z => length (snd cl)) (ar_clusters r)
    = repeat (S (nPoints km5 / length [4%Z; 1%Z]))%nat
             (nPoints km5 mod length [4%Z; 1%Z])%nat
      ++ repeat (nPoints km5 / length [4%Z; 1%Z])%nat
                (length [4%Z; 1%Z] - nPoints km5 mod length [4%Z; 1%Z])%nat.
Proof.
  apply (associate_cluster_sizes km5 5 [4; 1]).
  - exact km5_square.
  - discriminate.
  - repeat constructor; simpl; intuition lia.
  - intros x [<- | [<- | []]]; apply range_In; simpl; lia.
  - simpl. lia.
Defined.

(** ** Assignment: an empty medoid set, and the sign of the cost *)

Lemma assoc_while_no_medoid (this : KMedoids) (fuel : nat) (st : AssocState) :
  as_associatedPoints st <> nPoints this ->
  assoc_while fuel this [] st = OutOfFuel.
Proof.
  intros H. apply Nat.eqb_neq in H.
  induction fuel as [|fuel IH]; simpl; rewrite H; [reflexivity | exact IH].
Qed.

(** X7: called on the empty medoid set, the assignment loop has nothing to
    iterate over: it returns (an empty clustering of cost [0]) only when the
    engine has no point at all, and otherwise never leaves its [while]
    loop, whatever the number of passes allowed. *)
Theorem associate_no_medoid (this : KMedoids) (fuel : nat) :
  associateMedoidsToClosestPoint fuel this [] =
  if Nat.eqb (nPoints this) 0
  then Ok {| ar_clusters := []; configurationCost := Fin 0 |}
  else OutOfFuel.
Proof.
  unfold associateMedoidsToClosestPoint.
  destruct (Nat.eqb (nPoints this) 0) eqn:E.
  - apply Nat.eqb_eq in E.
    rewrite assoc_while_done by (simpl; congruence). reflexivity.
  - apply Nat.eqb_neq in E.
    rewrite assoc_while_no_medoid by (simpl; congruence). reflexivity.
Qed.

Lemma getDistance_nonneg (this : KMedoids) (p m : Z) (d : Q) :
  Forall (Forall (fun x => 0 <= x)%Q) (distanceMatrix this) ->
  getDistance this p m = Fin d -> (0 <= d)%Q.
Proof.
  intros Hpos. unfold getDistance, array_get.
  destruct (p <? 0); [discriminate|].
  destruct (nth_error (distanceMatrix this) (Z.to_nat p)) as [row|] eqn:Er;
    [|discriminate].
  destruct (m <? 0); [discriminate|].
  destruct (nth_error row (Z.to_nat m)) as [x|] eqn:Ex; [|discriminate].
  intros H. inversion H; subst x.
  apply nth_error_In in Er, Ex.
  rewrite Forall_forall in Hpos. specialize (Hpos row Er).
  rewrite Forall_forall in Hpos. exact (Hpos d Ex).
Qed.

Lemma fold_add_nonneg (l : list num) :
  Forall (fun x => exists q, x = Fin q /\ (0 <= q)%Q) l ->
  forall acc, (0 <= acc)%Q ->
  exists q, fold_left num_add l (Fin acc) = Fin q /\ (0 <= q)%Q.
Proof.
  induction 1 as [|x l (q & -> & Hq) _ IH]; intros acc Hacc; simpl; [eauto|].
  apply IH. apply (Qle_trans _ (0 + 0)%Q); [discriminate|].
  apply Qplus_le_compat; assumption.
Qed.

(** X8: when no entry of the matrix is negative, the cost the assignment
    returns is a number (not NaN) that is not below [0]. *)
Theorem configurationCost_nonneg (this : KMedoids) (fuel : nat) (medoids : list Z) :
  square_engine this ->
  Forall (Forall (fun x => 0 <= x)%Q) (distanceMatrix this) ->
  medoids <> [] -> NoDup medoids -> incl medoids (nRange this) ->
  (nPoints this <= fuel)%nat ->
  exists r,
    associateMedoidsToClosestPoint fuel this medoids = Ok r /\
    num_ltb (configurationCost r) (Fin 0) = false /\
    configurationCost r <> NaN.
Proof.
  intros Hsq Hpos Hne Hnd Hin Hfuel.
  destruct (associate_total this fuel medoids Hsq Hne (conj Hnd Hin) Hfuel)
    as (st & groups & _ & Hinv & Hc & E).
  assert (Hsum : exists q,
    sum (map (fun g => num_div (distance_total this (fst g) (snd g))
                               (S (length (snd g)))) groups) = Fin q
    /\ (0 <= q)%Q).
  { unfold sum. apply fold_add_nonneg; [|apply Qle_refl].
    apply Forall_forall. intros x Hx. apply in_map_iff in Hx.
    destruct Hx as (g & <- & Hg).
    assert (Hm : In (fst g) (nRange this)).
    { apply (assoc_inv_medoid_in_range _ _ _ _ _ Hinv).
      rewrite <- (ai_keys _ _ _ _ Hinv). apply in_map. exact Hg. }
    assert (Ha : incl (snd g) (nRange this)).
    { intros p Hp. apply (ai_range _ _ _ _ Hinv).
      apply (Permutation_in _ (Permutation_sym (ai_perm _ _ _ _ Hinv))).
      apply in_app_iff. right. apply in_concat. exists (snd g).
      split; [apply in_map; exact Hg | exact Hp]. }
    destruct (fold_add_nonneg
                (map (fun point => getDistance this point (fst g)) (snd g)))
      with (acc := 0%Q) as (t & Et & Ht); [|apply Qle_refl|].
    { apply Forall_forall. intros y Hy. apply in_map_iff in Hy.
      destruct Hy as (p & <- & Hp).
      destruct (getDistance_Fin this p (fst g) Hsq (Ha p Hp) Hm) as [d Hd].
      exists d. split; [exact Hd|].
      exact (getDistance_nonneg this p (fst g) d Hpos Hd). }
    unfold distance_total, sum. rewrite Et. simpl.
    eexists. split; [reflexivity|].
    apply Qle_shift_div_l; [|rewrite Qmult_0_l; exact Ht].
    change 0%Q with (inject_Z 0). rewrite <- Zlt_Qlt. lia. }
  destruct Hsum as (q & Eq & Hq).
  eexists. split; [exact E|]. simpl. rewrite Eq. simpl.
  split; [apply Qltb_ge; exact Hq | discriminate].
Qed.

Lemma configurationCost_nonneg_witness :
  exists r,
    associateMedoidsToClosestPoint 5 km5 [0; 3] = Ok r /\
    num_ltb (configurationCost r) (Fin 0) = false /\
    configurationCost r <> NaN.
Proof.
  apply (configurationCost_nonneg km5 5 [0; 3]).
  - exact km5_square.
  - repeat constructor; discriminate.
  - discriminate.
  - repeat constructor; simpl; intuition lia.
  - intros x [<- | [<- | []]]; apply range_In; simpl; lia.
  - simpl. lia.
Defined.

(** ** Seeding with a cluster count that is not positive *)

Lemma filter_length_le {A : Type} (f g : A -> bool) (l : list A) :
  (forall x, f x = true -> g x = true) ->
  (length (filter f l) <= length (filter g l))%nat.
Proof.
  intros H. induction l as [|x l IH]; simpl; [lia|].
  destruct (f x) eqn:E.
  - rewrite (H x E). simpl. lia.
  - destruct (g x); simpl; lia.
Qed.

Lemma non_medoids_shrink (p : Z) (m points : list Z) :
  In p points -> ~ In p m ->
  (length (filter (fun x => negb (set_has (set_add p m) x)) points)
   < length (filter (fun x => negb (set_has m x)) points))%nat.
Proof.
  intros Hp Hm.
  assert (Hmono : forall x, negb (set_has (set_add p m) x) = true ->
                            negb (set_has m x) = true).
  { intros x. rewrite !negb_true_iff, !set_has_not_In, set_add_In. tauto. }
  induction points as [|y points IH]; [destruct Hp|]. simpl.
  destruct Hp as [-> | Hp].
  - replace (set_has (set_add p m) p) with true
      by (symmetry; apply set_has_In, set_add_In; auto).
    replace (set_has m p) with false by (symmetry; apply set_has_not_In, Hm).
    simpl. pose proof (filter_length_le _ _ points Hmono). lia.
  - specialize (IH Hp).
    destruct (negb (set_has (set_add p m) y)) eqn:E.
    + rewrite (Hmono y E). simpl. lia.
    + destruct (negb (set_has m y)); simpl; lia.
Qed.

Lemma initializeMedoids_while_throws (this : KMedoids) (rand : nat -> nat) :
  nClusters this <= 0 ->
  forall (fuel draw : nat) (medoids : list Z),
    medoids <> [] ->
    (length (filter (fun x => negb (set_has medoids x)) (nRange this)) < fuel)%nat ->
    initializeMedoids_while fuel rand this draw medoids = TypeError.
Proof.
  intros Hk. induction fuel as [|fuel IH]; intros draw medoids Hne Hfuel; [lia|].
  simpl. unfold size.
  assert (E : (Z.of_nat (length medoids) =? nClusters this) = false).
  { apply Z.eqb_neq. destruct medoids; [congruence | simpl; lia]. }
  rewrite E.
  destruct (array_get _ _) as [picked|] eqn:Eg; [|reflexivity].
  assert (Hin : In picked (sortBy_distance (seeding_distances this medoids))).
  { unfold array_get in Eg. destruct (_ <? 0); [discriminate|].
    eapply nth_error_In. exact Eg. }
  apply (Permutation_in _ (sortBy_distance_perm _)) in Hin.
  apply seeding_distances_In in Hin. destruct Hin as [Hr Hn].
  apply IH.
  - intros Hempty. assert (H : In (pd_point picked) (set_add (pd_point picked) medoids))
      by (apply set_add_In; auto).
    rewrite Hempty in H. destruct H.
  - pose proof (non_medoids_shrink _ _ _ Hr Hn). lia.
Qed.

(** X9: the constructor lets a cluster count [k <= 0] through, but [run] on
    such an engine cannot succeed: the seeding loop never sees [k] medoids,
    takes every point in turn, then reads past the end of the empty list of
    candidates, which raises a [TypeError]. *)
Theorem run_nonpositive_k_throws (dm : list (list Q)) (k : Z) (sp ep : Q)
  (this : KMedoids) (fuel : nat) (rand : nat -> nat) (maxIterations : Z)
  (tolerance : Q) :
  constructor dm k sp ep = inr this -> k <= 0 ->
  (length dm <= fuel)%nat -> (1 <= fuel)%nat ->
  initializeMedoids fuel rand this = TypeError /\
  run fuel rand this maxIterations tolerance = TypeError.
Proof.
  intros Hc Hk Hfuel H1.
  assert (Hthis : nClusters this = k /\ nPoints this = length dm /\
                  nRange this = range (length dm)).
  { unfold constructor in Hc.
    destruct (negb _) in Hc; [discriminate|].
    destruct (negb _) in Hc; [discriminate|].
    inversion Hc; auto. }
  destruct Hthis as (Ek & En & Er).
  assert (Einit : initializeMedoids fuel rand this = TypeError).
  { unfold initializeMedoids. simpl set_add.
    apply initializeMedoids_while_throws; [lia | discriminate |].
    set (seed := random 0 (Z.of_nat (nPoints this) - 1) (rand 0%nat)).
    destruct (length dm) as [|n] eqn:El.
    - rewrite Er. simpl. lia.
    - assert (Hseed : In seed (nRange this)).
      { rewrite Er. apply range_In. unfold seed. rewrite En.
        pose proof (random_bounds 0 (Z.of_nat (S n) - 1) (rand 0%nat)). lia. }
      pose proof (non_medoids_shrink seed [] (nRange this) Hseed (fun H => H))
        as Hlt.
      change (set_add seed []) with [seed] in Hlt.
      assert (Hall : length (filter (fun x => negb (set_has [] x)) (nRange this))
                     = S n).
      { simpl. rewrite Er.
        replace (filter (fun _ => true) (range (S n))) with (range (S n));
          [apply range_length|].
        symmetry. apply forallb_filter_id. apply forallb_forall. reflexivity. }
      change (set_add seed []) with [seed]. lia. }
  split; [exact Einit|].
  unfold run, run_state. rewrite Einit. reflexivity.
Qed.

Lemma run_nonpositive_k_throws_witness :
  initializeMedoids 5 zero_draws
    (mkKMedoids line5 0 5 (range 5) (90 # 100) (99 # 100) None []) = TypeError /\
  run 5 zero_draws
    (mkKMedoids line5 0 5 (range 5) (90 # 100) (99 # 100) None []) 10 (1 # 100)
  = TypeError.
Proof.
  apply (run_nonpositive_k_throws line5 0 (90 # 100) (99 # 100)
           (mkKMedoids line5 0 5 (range 5) (90 # 100) (99 # 100) None [])
           5 zero_draws 10 (1 # 100)).
  - reflexivity.
  - lia.
  - simpl. lia.
  - lia.
Defined.

(** ** Refinement: what the engine holds when [run] returns *)

Lemma fold_left_ext {A B : Type} (f g : A -> B -> A) (l : list B) (a : A) :
  (forall a b, f a b = g a b) -> fold_left f l a = fold_left g l a.
Proof.
  intros H. revert a. induction l as [|b l IH]; intros a; simpl; [reflexivity|].
  rewrite H. apply IH.
Qed.

Lemma forEach_ext {S A : Type} (f g : S -> A -> outcome S) (l : list A) (s : S) :
  (forall s x, f s x = g s x) -> forEach l f s = forEach l g s.
Proof.
  intros H. revert s. induction l as [|x l IH]; intros s; simpl; [reflexivity|].
  rewrite H. destruct (g s x); simpl; auto.
Qed.

(** The assignment reads the matrix, the range and the number of points of
    the engine, and nothing else. *)
Lemma associate_same_data (e e' : KMedoids) (fuel : nat) (medoids : list Z) :
  distanceMatrix e = distanceMatrix e' -> nRange e = nRange e' ->
  nPoints e = nPoints e' ->
  associateMedoidsToClosestPoint fuel e medoids
  = associateMedoidsToClosestPoint fuel e' medoids.
Proof.
  intros Hm Hr Hn.
  assert (Hd : forall p q, getDistance e p q = getDistance e' p q)
    by (intros; unfold getDistance; rewrite Hm; reflexivity).
  assert (Hcp : forall m ex, getClosestPoint e m ex = getClosestPoint e' m ex).
  { intros m ex. unfold getClosestPoint. cbv zeta. rewrite Hr.
    apply fold_left_ext. intros a b. rewrite Hd. reflexivity. }
  assert (Hb : forall st m, assoc_body e st m = assoc_body e' st m)
    by (intros; unfold assoc_body; rewrite Hcp; reflexivity).
  assert (Hw : forall st, assoc_while fuel e medoids st
                          = assoc_while fuel e' medoids st).
  { induction fuel as [|fuel IH]; intros st; simpl; rewrite Hn; [reflexivity|].
    destruct (Nat.eqb _ _); [reflexivity|].
    rewrite (forEach_ext _ _ _ _ Hb).
    destruct (forEach medoids (assoc_body e') st); simpl; auto. }
  unfold associateMedoidsToClosestPoint. rewrite Hw. reflexivity.
Qed.

Lemma swap_body_keeps_consistency (fuel : nat) (medoid nonMedoid : Z)
  (st st' : RunState) :
  swap_body fuel medoid st nonMedoid = Ok st' ->
  consistent fuel st -> consistent fuel st'.
Proof.
  unfold swap_body. cbv zeta. intros H Hst.
  apply bind_Ok in H. destruct H as (r & Er & H).
  destruct (num_ltb (configurationCost r) (currentCost st));
    inversion H; subst; clear H; [|exact Hst].
  exists r. simpl. split; [|auto].
  rewrite <- Er. apply associate_same_data; reflexivity.
Qed.

Lemma medoid_body_keeps_consistency (fuel : nat) (medoid : Z) (st st' : RunState) :
  medoid_body fuel st medoid = Ok st' ->
  consistent fuel st -> consistent fuel st'.
Proof.
  unfold medoid_body.
  apply (forEach_partial (fun s s' => consistent fuel s -> consistent fuel s'));
    [auto | auto |].
  intros s x s'. apply swap_body_keeps_consistency.
Qed.

Lemma run_pass_keeps_consistency (fuel : nat) (st st' : RunState) :
  run_pass fuel st = Ok st' -> consistent fuel st -> consistent fuel st'.
Proof.
  unfold run_pass.
  apply (forEach_partial (fun s s' => consistent fuel s -> consistent fuel s'));
    [auto | auto |].
  intros s x s'. apply medoid_body_keeps_consistency.
Qed.

Lemma run_while_keeps_consistency (fuel : nat) (maxIterations : Z) (tolerance : Q) :
  forall (passes : nat) (st st' : RunState) (iteration iteration' : Z),
    run_while passes fuel maxIterations tolerance st iteration
    = Ok (st', iteration') ->
    consistent fuel st -> consistent fuel st'.
Proof.
  induction passes as [|passes IH]; intros st st' it it' H Hst; cbn [run_while] in H;
    destruct (num_ltb (Fin tolerance) (costChange st) && (it <? maxIterations));
    try discriminate.
  - inversion H; subst. exact Hst.
  - apply bind_Ok in H. destruct H as (st1 & E1 & H).
    apply (IH _ _ _ _ H).
    apply (run_pass_keeps_consistency fuel _ _ E1). exact Hst.
  - inversion H; subst. exact Hst.
Qed.

(** X10: on a freshly constructed engine (n-by-n matrix, [0 < k]), [run]
    returns an engine whose medoids are a non-empty set of distinct points of
    the range, and whose [clusters] field is either still unset or exactly
    the clustering the assignment computes for these final medoids. *)
Theorem run_result_consistent (dm : list (list Q)) (k : Z) (sp ep : Q)
  (this : KMedoids) (fuel : nat) (rand : nat -> nat) (maxIterations : Z)
  (tolerance : Q) :
  constructor dm k sp ep = inr this ->
  Forall (fun row => length row = length dm) dm ->
  0 < k ->
  (length dm <= fuel)%nat -> (Z.to_nat maxIterations <= fuel)%nat ->
  exists e,
    run fuel rand this maxIterations tolerance = Ok e /\
    medoids e <> [] /\ NoDup (medoids e) /\ incl (medoids e) (range (length dm)) /\
    (clusters e = None \/
     exists r, associateMedoidsToClosestPoint fuel e (medoids e) = Ok r /\
               clusters e = Some (ar_clusters r)).
Proof.
  intros Hc Hrows Hk Hfuel Hpasses.
  destruct (constructor_square dm k sp ep this Hc Hrows)
    as (Hsq & Ek & Hkn & H0 & Hlt & H1).
  assert (Hthis : nPoints this = length dm /\ clusters this = None).
  { unfold constructor in Hc.
    destruct (negb _) in Hc; [discriminate|].
    destruct (negb _) in Hc; [discriminate|].
    inversion Hc; auto. }
  destruct Hthis as [Hn Hnone].
  destruct (initializeMedoids_total this fuel rand (sq_range _ Hsq) H0 Hlt H1)
    as (m & Em & Hnd & Hin & Hlen); [lia | lia |].
  set (this1 := with_medoids this m).
  assert (Hsq1 : square_engine this1).
  { destruct Hsq as [A B C]. constructor; simpl; assumption. }
  assert (Hne : m <> []) by (intros ->; simpl in Hlen; lia).
  destruct (associate_total this1 fuel m Hsq1 Hne (conj Hnd Hin))
    as (ast & groups & _ & _ & _ & Ea); [simpl; lia|].
  match type of Ea with _ = Ok ?x => set (r0 := x) in * end.
  destruct (run_while_total fuel (nPoints this) (nRange this) maxIterations
              tolerance ltac:(lia) fuel
              {| this_ := this1; currentCost := configurationCost r0;
                 costChange := PInf |} 0)
    as (st & passes & Er & Hst & _).
  - unfold refining, medoid_set. simpl. auto 10.
  - lia.
  - exists (this_ st).
    assert (E : run_state fuel rand this maxIterations tolerance = Ok (st, passes)).
    { unfold run_state. rewrite Em. simpl. fold this1.
      change (medoids this1) with m. rewrite Ea. simpl. exact Er. }
    split; [unfold run; rewrite E; reflexivity|].
    destruct Hst as (_ & _ & Hr & Hne' & Hnd' & Hin').
    rewrite Hr, (sq_range _ Hsq), Hn in Hin'.
    split; [exact Hne' | split; [exact Hnd' | split; [exact Hin'|]]].
    destruct (run_while_keeps_consistency fuel maxIterations tolerance fuel
                _ st 0 passes Er) as (r & Ear & _ & Hcl).
    + exists r0. simpl. split; [exact Ea | split; [reflexivity | left; exact Hnone]].
    + destruct Hcl as [Hcl | Hcl]; [left; exact Hcl | right; eauto].
Qed.

Lemma run_result_consistent_witness :
  exists e,
    run 10 zero_draws km5_wide 10 (1 # 100) = Ok e /\
    medoids e <> [] /\ NoDup (medoids e) /\ incl (medoids e) (range (length line5)) /\
    (clusters e = None \/
     exists r, associateMedoidsToClosestPoint 10 e (medoids e) = Ok r /\
               clusters e = Some (ar_clusters r)).
Proof.
  apply (run_result_consistent line5 2 0 1 km5_wide 10 zero_draws 10 (1 # 100)).
  - reflexivity.
  - repeat constructor.
  - lia.
  - simpl. lia.
  - simpl. lia.
Defined.

(** ** Refinement: when the loop stops *)

Lemma costChange_above_negative (tolerance : Q) (cur new : num) :
  (tolerance < 0)%Q -> num_ltb new cur = true ->
  num_ltb (Fin tolerance) (num_sub cur new) = true.
Proof.
  intros Ht H. destruct cur as [a| | |], new as [b| | |]; simpl in *;
    try discriminate; try reflexivity.
  apply Qltb_lt in H. apply Qltb_lt.
  apply Qlt_trans with 0%Q; [exact Ht|].
  apply (proj1 (Qlt_minus_iff b a)). exact H.
Qed.

Lemma run_pass_costChange (fuel : nat) (tolerance : Q) (st st' : RunState) :
  (tolerance < 0)%Q -> run_pass fuel st = Ok st' ->
  num_ltb (Fin tolerance) (costChange st) = true ->
  num_ltb (Fin tolerance) (costChange st') = true.
Proof.
  intros Ht. unfold run_pass.
  apply (forEach_partial
           (fun s s' => num_ltb (Fin tolerance) (costChange s) = true ->
                        num_ltb (Fin tolerance) (costChange s') = true));
    [auto | auto |].
  intros s medoid s'. unfold medoid_body.
  apply (forEach_partial
           (fun s s' => num_ltb (Fin tolerance) (costChange s) = true ->
                        num_ltb (Fin tolerance) (costChange s') = true));
    [auto | auto |].
  intros s1 x s2 E Hs1.
  destruct (swap_body_cost _ _ _ _ _ E) as [-> | (Hlt & _ & Ec)]; [exact Hs1|].
  rewrite Ec. apply costChange_above_negative; assumption.
Qed.

Lemma run_while_exhausts (fuel n : nat) (points : list Z) (maxIterations : Z)
  (tolerance : Q) :
  (n <= fuel)%nat -> (tolerance < 0)%Q ->
  forall (passes : nat) (st : RunState) (iteration : Z),
    refining n points st ->
    num_ltb (Fin tolerance) (costChange st) = true ->
    iteration <= maxIterations ->
    (Z.to_nat (maxIterations - iteration) <= passes)%nat ->
    exists st',
      run_while passes fuel maxIterations tolerance st iteration
      = Ok (st', maxIterations).
Proof.
  intros Hfuel Ht. induction passes as [|passes IH]; intros st it Hst Hcc Hit Hp;
    cbn [run_while]; rewrite Hcc; simpl;
    destruct (it <? maxIterations) eqn:E;
    try (apply Z.ltb_lt in E); try (apply Z.ltb_ge in E).
  - lia.
  - exists st. f_equal. f_equal. lia.
  - destruct (run_pass_total fuel n points (reset_costChange st) Hfuel)
      as (st1 & E1 & Hst1); [exact Hst|].
    rewrite E1. simpl. apply IH; [exact Hst1 | | lia | lia].
    apply (run_pass_costChange fuel tolerance _ _ Ht E1).
    simpl. apply Qltb_lt. exact Ht.
  - exists st. f_equal. f_equal. lia.
Qed.

(** X11: a negative tolerance switches the convergence test off: [costChange]
    is [0] or a positive improvement after every pass, so [run] performs
    exactly [maxIterations] passes, whether or not any swap still
    improves. *)
Theorem run_negative_tolerance (dm : list (list Q)) (k : Z) (sp ep : Q)
  (this : KMedoids) (fuel : nat) (rand : nat -> nat) (maxIterations : Z)
  (tolerance : Q) :
  constructor dm k sp ep = inr this ->
  Forall (fun row => length row = length dm) dm ->
  0 < k -> 0 <= maxIterations -> (tolerance < 0)%Q ->
  (length dm <= fuel)%nat -> (Z.to_nat maxIterations <= fuel)%nat ->
  exists st, run_state fuel rand this maxIterations tolerance
             = Ok (st, maxIterations).
Proof.
  intros Hc Hrows Hk Hmax Ht Hfuel Hpasses.
  destruct (constructor_square dm k sp ep this Hc Hrows)
    as (Hsq & Ek & Hkn & H0 & Hlt & H1).
  assert (Hn : nPoints this = length dm).
  { unfold constructor in Hc.
    destruct (negb _) in Hc; [discriminate|].
    destruct (negb _) in Hc; [discriminate|].
    inversion Hc; reflexivity. }
  destruct (initializeMedoids_total this fuel rand (sq_range _ Hsq) H0 Hlt H1)
    as (m & Em & Hnd & Hin & Hlen); [lia | lia |].
  set (this1 := with_medoids this m).
  assert (Hsq1 : square_engine this1).
  { destruct Hsq as [A B C]. constructor; simpl; assumption. }
  assert (Hne : m <> []) by (intros ->; simpl in Hlen; lia).
  destruct (associate_total this1 fuel m Hsq1 Hne (conj Hnd Hin))
    as (ast & groups & _ & _ & _ & Ea); [simpl; lia|].
  match type of Ea with _ = Ok ?x => set (r0 := x) in * end.
  destruct (run_while_exhausts fuel (nPoints this) (nRange this) maxIterations
              tolerance ltac:(lia) Ht fuel
              {| this_ := this1; currentCost := configurationCost r0;
                 costChange := PInf |} 0)
    as (st & Er).
  - unfold refining, medoid_set. simpl. auto 10.
  - reflexivity.
  - exact Hmax.
  - lia.
  - exists st. unfold run_state. rewrite Em. simpl. fold this1.
    change (medoids this1) with m. rewrite Ea. simpl. exact Er.
Qed.

Lemma run_negative_tolerance_witness :
  exists st, run_state 10 zero_draws km5 7 (- (1 # 100)) = Ok (st, 7).
Proof.
  apply (run_negative_tolerance line5 2 (90 # 100) (99 # 100) km5 10 zero_draws
           7 (- (1 # 100))).
  - reflexivity.
  - repeat constructor.
  - lia.
  - lia.
  - reflexivity.
  - simpl. lia.
  - simpl. lia.
Defined.

(** ** Seeding with the default window *)

Lemma random_same (a : Z) (raw : nat) : random a a raw = a.
Proof.
  unfold random. cbv zeta. rewrite Z.min_id, Z.max_id, Z.sub_diag. simpl.
  rewrite Z.mod_1_r. lia.
Qed.

(** With the window [0.90, 0.99] and at most ten candidates, [startIdx] and
    [endIdx] both are the last position of the sorted list. *)
Lemma default_window_picks_last (this : KMedoids) (count raw : nat) :
  startProb this = 90 # 100 -> endProb this = 99 # 100 ->
  (1 <= count <= 10)%nat ->
  random (startIdx_of this count) (endIdx_of this count) raw = Z.of_nat count - 1.
Proof.
  intros Hs He Hc. unfold startIdx_of, endIdx_of. rewrite Hs, He.
  do 11 (destruct count as [|count]; [try lia; apply random_same|]). lia.
Qed.

Lemma sort_insert_sorted (x : PointDistance) (l : list PointDistance) :
  (exists q, pd_distance x = Fin q) ->
  Forall (fun y => exists q, pd_distance y = Fin q) l ->
  StronglySorted (fun a b => num_ltb (pd_distance b) (pd_distance a) = false) l ->
  StronglySorted (fun a b => num_ltb (pd_distance b) (pd_distance a) = false)
                 (sort_insert x l).
Proof.
  intros [qx Hx] Hfin Hs. induction Hs as [|y l Hs IH Hy]; simpl.
  - repeat constructor.
  - apply Forall_cons_iff in Hfin. destruct Hfin as [[qy Hqy] Hfin].
    destruct (num_ltb (pd_distance y) (pd_distance x)) eqn:E.
    + constructor; [apply IH; exact Hfin|].
      apply (Permutation_Forall (Permutation_sym (sort_insert_perm x l))).
      constructor; [|exact Hy].
      rewrite Hx, Hqy in *. simpl in *. apply Qltb_lt in E. apply Qltb_ge.
      apply Qlt_le_weak. exact E.
    + constructor; [constructor; assumption|].
      constructor; [exact E|].
      rewrite Forall_forall in *. intros z Hz.
      specialize (Hy z Hz). destruct (Hfin z Hz) as [qz Hqz].
      rewrite Hx, Hqy, Hqz in *. simpl in *.
      apply Qltb_ge in E, Hy. apply Qltb_ge. eapply Qle_trans; eassumption.
Qed.

Lemma sortBy_distance_sorted (l : list PointDistance) :
  Forall (fun y => exists q, pd_distance y = Fin q) l ->
  StronglySorted (fun a b => num_ltb (pd_distance b) (pd_distance a) = false)
                 (sortBy_distance l).
Proof.
  induction 1 as [|x l Hx Hl IH]; simpl; [constructor|].
  apply sort_insert_sorted; [exact Hx | | exact IH].
  apply (Permutation_Forall (Permutation_sym (sortBy_distance_perm l))). exact Hl.
Qed.

Lemma sorted_last_is_farthest (l : list PointDistance) (x : PointDistance) :
  StronglySorted (fun a b => num_ltb (pd_distance b) (pd_distance a) = false) l ->
  nth_error l (length l - 1) = Some x ->
  forall y, In y l -> num_ltb (pd_distance x) (pd_distance y) = false.
Proof.
  induction 1 as [|a l Hs IH Ha]; intros Hx y Hy; [destruct Hy|].
  destruct l as [|b l'].
  - simpl in Hx. inversion Hx; subst. destruct Hy as [<- | []].
    apply num_ltb_irrefl.
  - assert (Hx' : nth_error (b :: l') (length (b :: l') - 1) = Some x).
    { simpl in Hx |- *. rewrite Nat.sub_0_r. exact Hx. }
    destruct Hy as [<- | Hy]; [|apply IH; assumption].
    rewrite Forall_forall in Ha. apply Ha.
    eapply nth_error_In. exact Hx'.
Qed.

Lemma seeding_distances_Fin (this : KMedoids) (medoids : list Z) :
  square_engine this -> medoids <> [] -> incl medoids (nRange this) ->
  Forall (fun y => exists q, pd_distance y = Fin q)
         (seeding_distances this medoids).
Proof.
  intros Hsq Hne Hin. apply Forall_forall. intros pd Hpd.
  unfold seeding_distances in Hpd. apply in_map_iff in Hpd.
  destruct Hpd as (p & <- & Hp). apply filter_In in Hp. destruct Hp as [Hp _].
  simpl.
  destruct (nearest_scan_first ClosestMedoid cm_distance mkClosestMedoid
              (fun m => getDistance this p m) (fun _ _ => eq_refl)
              medoids {| cm_medoid := -1; cm_distance := PInf |})
    as (l1 & x & l2 & q & _ & _ & E & _).
  - intros m Hm. apply getDistance_Fin; auto.
  - exact Hne.
  - reflexivity.
  - exists q. unfold getClosestMedoid. cbv zeta. rewrite E. reflexivity.
Qed.

(** X13: with the default window [0.90, 0.99] and at most ten non-medoids
    left, a round of the seeding does not depend on the random generator: it
    adds a non-medoid whose distance to its closest medoid is the largest
    (farthest-first seeding). *)
Theorem default_seeding_farthest_first (this : KMedoids) (medoids : list Z) :
  square_engine this ->
  startProb this = 90 # 100 -> endProb this = 99 # 100 ->
  medoids <> [] -> incl medoids (nRange this) ->
  Z.of_nat (length medoids) <> nClusters this ->
  (1 <= length (seeding_distances this medoids) <= 10)%nat ->
  exists picked,
    In picked (seeding_distances this medoids) /\
    (forall pd, In pd (seeding_distances this medoids) ->
                num_ltb (pd_distance picked) (pd_distance pd) = false) /\
    (forall (fuel draw : nat) (rand : nat -> nat),
       initializeMedoids_while (S fuel) rand this draw medoids
       = initializeMedoids_while fuel rand this (S draw)
           (set_add (pd_point picked) medoids)).
Proof.
  intros Hsq Hs He Hne Hin Hk Hcount.
  set (distances := seeding_distances this medoids) in *.
  destruct (array_get_in_bounds (sortBy_distance distances)
              (Z.of_nat (length distances) - 1))
    as (picked & Eg & Hpicked).
  { rewrite (Permutation_length (sortBy_distance_perm distances)). lia. }
  exists picked.
  pose proof (sortBy_distance_perm distances) as Hperm.
  split; [apply (Permutation_in _ Hperm); exact Hpicked|].
  split.
  - intros pd Hpd.
    apply (sorted_last_is_farthest (sortBy_distance distances)).
    + apply sortBy_distance_sorted.
      apply seeding_distances_Fin; assumption.
    + unfold array_get in Eg.
      destruct (_ <? 0); [discriminate|].
      rewrite (Permutation_length Hperm).
      replace (length distances - 1)%nat
        with (Z.to_nat (Z.of_nat (length distances) - 1)) by lia.
      exact Eg.
    + apply (Permutation_in _ (Permutation_sym Hperm)). exact Hpd.
  - intros fuel draw rand. cbn [initializeMedoids_while]. unfold size.
    rewrite (proj2 (Z.eqb_neq _ _) Hk). fold distances.
    rewrite (default_window_picks_last this _ _ Hs He Hcount), Eg.
    reflexivity.
Qed.

Lemma default_seeding_farthest_first_witness :
  exists picked,
    In picked (seeding_distances km5 [1]) /\
    (forall pd, In pd (seeding_distances km5 [1]) ->
                num_ltb (pd_distance picked) (pd_distance pd) = false) /\
    (forall (fuel draw : nat) (rand : nat -> nat),
       initializeMedoids_while (S fuel) rand km5 draw [1]
       = initializeMedoids_while fuel rand km5 (S draw)
           (set_add (pd_point picked) [1])).
Proof.
  apply (default_seeding_farthest_first km5 [1]).
  - exact km5_square.
  - reflexivity.
  - reflexivity.
  - discriminate.
  - intros x [<- | []]; apply range_In; simpl; lia.
  - simpl. lia.
  - simpl. lia.
Defined.

(** ** More fuel changes no result *)

Lemma forEach_mono {S A : Type} (body body' : S -> A -> outcome S) (l : list A) :
  (forall s x s', body s x = Ok s' -> body' s x = Ok s') ->
  forall s s', forEach l body s = Ok s' -> forEach l body' s = Ok s'.
Proof.
  intros H. induction l as [|x l IH]; intros s s' E; simpl in *; [exact E|].
  apply bind_Ok in E. destruct E as (s1 & E1 & E2).
  rewrite (H _ _ _ E1). simpl. apply IH. exact E2.
Qed.

Lemma assoc_while_mono (this : KMedoids) (medoids : list Z) :
  forall (fuel fuel' : nat) (st st' : AssocState),
    (fuel <= fuel')%nat ->
    assoc_while fuel this medoids st = Ok st' ->
    assoc_while fuel' this medoids st = Ok st'.
Proof.
  induction fuel as [|fuel IH]; intros fuel' st st' Hle H; simpl in H;
    destruct (Nat.eqb (as_associatedPoints st) (nPoints this)) eqn:E;
    try discriminate.
  - inversion H; subst. apply assoc_while_done. apply Nat.eqb_eq. exact E.
  - inversion H; subst. apply assoc_while_done. apply Nat.eqb_eq. exact E.
  - destruct fuel' as [|fuel']; [lia|]. simpl. rewrite E.
    apply bind_Ok in H. destruct H as (st1 & E1 & H).
    rewrite E1. simpl. apply IH; [lia | exact H].
Qed.

Lemma associate_mono (this : KMedoids) (medoids : list Z) (fuel fuel' : nat)
  (r : Association) :
  (fuel <= fuel')%nat ->
  associateMedoidsToClosestPoint fuel this medoids = Ok r ->
  associateMedoidsToClosestPoint fuel' this medoids = Ok r.
Proof.
  intros Hle H. unfold associateMedoidsToClosestPoint in *.
  apply bind_Ok in H. destruct H as (st & E & H).
  rewrite (assoc_while_mono this medoids fuel fuel' _ _ Hle E). exact H.
Qed.

Lemma initializeMedoids_while_mono (this : KMedoids) (rand : nat -> nat) :
  forall (fuel fuel' draw : nat) (medoids m : list Z),
    (fuel <= fuel')%nat ->
    initializeMedoids_while fuel rand this draw medoids = Ok m ->
    initializeMedoids_while fuel' rand this draw medoids = Ok m.
Proof.
  induction fuel as [|fuel IH]; intros fuel' draw medoids m Hle H; simpl in H;
    destruct (Z.of_nat (size medoids) =? nClusters this) eqn:E;
    try discriminate.
  - destruct fuel'; simpl; rewrite E; exact H.
  - destruct fuel'; simpl; rewrite E; exact H.
  - destruct fuel' as [|fuel']; [lia|]. simpl. rewrite E.
    destruct (array_get _ _); [|discriminate].
    apply IH; [lia | exact H].
Qed.

Lemma run_pass_mono (fuel fuel' : nat) (st st' : RunState) :
  (fuel <= fuel')%nat ->
  run_pass fuel st = Ok st' -> run_pass fuel' st = Ok st'.
Proof.
  intros Hle. unfold run_pass. apply forEach_mono.
  intros s medoid s'. unfold medoid_body. apply forEach_mono.
  intros s1 x s2. unfold swap_body. cbv zeta. intros H.
  apply bind_Ok in H. destruct H as (r & E & H).
  rewrite (associate_mono _ _ fuel fuel' r Hle E). exact H.
Qed.

Lemma run_while_mono (maxIterations : Z) (tolerance : Q) :
  forall (passes passes' fuel fuel' : nat) (st : RunState) (iteration : Z)
         (res : RunState * Z),
    (passes <= passes')%nat -> (fuel <= fuel')%nat ->
    run_while passes fuel maxIterations tolerance st iteration = Ok res ->
    run_while passes' fuel' maxIterations tolerance st iteration = Ok res.
Proof.
  induction passes as [|passes IH]; intros passes' fuel fuel' st it res Hp Hf H;
    cbn [run_while] in H;
    destruct (num_ltb (Fin tolerance) (costChange st) && (it <? maxIterations))
      eqn:E; try discriminate.
  - destruct passes'; cbn [run_while]; rewrite E; exact H.
  - destruct passes' as [|passes']; [lia|]. cbn [run_while]. rewrite E.
    apply bind_Ok in H. destruct H as (st1 & E1 & H).
    rewrite (run_pass_mono fuel fuel' _ _ Hf E1). simpl.
    apply (IH passes' fuel fuel'); [lia | exact Hf | exact H].
  - destruct passes'; cbn [run_while]; rewrite E; exact H.
Qed.

Lemma run_mono (fuel fuel' : nat) (rand : nat -> nat) (this e : KMedoids)
  (maxIterations : Z) (tolerance : Q) :
  (fuel <= fuel')%nat ->
  run fuel rand this maxIterations tolerance = Ok e ->
  run fuel' rand this maxIterations tolerance = Ok e.
Proof.
  intros Hle H. unfold run, run_state, initializeMedoids in *.
  apply bind_Ok in H. destruct H as (res & H & Hres).
  apply bind_Ok in H. destruct H as (m & Em & H).
  apply bind_Ok in H. destruct H as (r & Er & H).
  rewrite (initializeMedoids_while_mono this rand fuel fuel' _ _ _ Hle Em).
  cbn [bind].
  rewrite (associate_mono _ _ fuel fuel' r Hle Er). cbn [bind].
  rewrite (run_while_mono _ _ fuel fuel' fuel fuel' _ _ _ Hle Hle H). cbn [bind].
  exact Hres.
Qed.

(** ** The demonstration *)

Lemma default_seeding_round (this : KMedoids) (medoids : list Z)
  (fuel draw : nat) (rand : nat -> nat) :
  startProb this = 90 # 100 -> endProb this = 99 # 100 ->
  Z.of_nat (length medoids) <> nClusters this ->
  (1 <= length (seeding_distances this medoids) <= 10)%nat ->
  initializeMedoids_while (S fuel) rand this draw medoids =
  match array_get (sortBy_distance (seeding_distances this medoids))
                  (Z.of_nat (length (seeding_distances this medoids)) - 1) with
  | None => TypeError
  | Some picked =>
      initializeMedoids_while fuel rand this (S draw)
        (set_add (pd_point picked) medoids)
  end.
Proof.
  intros Hs He Hk Hcount. cbn [initializeMedoids_while]. unfold size.
  rewrite (proj2 (Z.eqb_neq _ _) Hk).
  rewrite (default_window_picks_last this _ _ Hs He Hcount). reflexivity.
Qed.

Lemma App_with_seed (rand : nat -> nat) (seed : Z) :
  0 <= seed <= 4 ->
  exists second,
    e <- (res <- (m <- initializeMedoids_while 10 rand km5 1 [seed] ;;
                  r <- associateMedoidsToClosestPoint 10 (with_medoids km5 m) m ;;
                  run_while 10 10 10 (1 # 100)
                    {| this_ := with_medoids km5 m;
                       currentCost := configurationCost r;
                       costChange := PInf |} 0) ;;
          Ok (this_ (fst res))) ;;
    Ok (medoids e, clusters e)
    = Ok ([seed; second], None).
Proof.
  intros Hseed.
  assert (Hcases : seed = 0 \/ seed = 1 \/ seed = 2 \/ seed = 3 \/ seed = 4) by lia.
  destruct Hcases as [-> | [-> | [-> | [-> | ->]]]];
    rewrite default_seeding_round
      by (try reflexivity; try discriminate; simpl; lia);
    eexists; vm_compute; reflexivity.
Qed.

(** X14: whatever the random generator draws, the demonstration of [App]
    logs two medoids and [null] for the clusters: on its five-point matrix
    the second seed is the point farthest from the first, and from such
    seeds no single swap lowers the cost, so [run] never stores a
    clustering. *)
Theorem App_logs_no_clusters (fuel : nat) (rand : nat -> nat) :
  (10 <= fuel)%nat ->
  exists first second, App fuel rand = inr (Ok ([first; second], None)).
Proof.
  intros Hfuel.
  set (seed := random 0 (Z.of_nat (nPoints km5) - 1) (rand 0%nat)).
  assert (Hseed : 0 <= seed <= 4).
  { pose proof (random_bounds 0 (Z.of_nat (nPoints km5) - 1) (rand 0%nat)).
    unfold seed. simpl in *. lia. }
  destruct (App_with_seed rand seed Hseed) as (second & E).
  exists seed, second.
  change (App fuel rand)
    with (@inr exn _ (e <- run fuel rand km5 10 (1 # 100) ;;
                      Ok (medoids e, clusters e))).
  f_equal.
  apply bind_Ok in E. destruct E as (e & Ee & E).
  rewrite (run_mono 10 fuel rand km5 e 10 (1 # 100) Hfuel); [exact E|].
  exact Ee.
Qed.

Lemma App_logs_no_clusters_witness :
  exists first second, App 10 zero_draws = inr (Ok ([first; second], None)).
Proof.
  apply (App_logs_no_clusters 10 zero_draws). lia.
Defined.

(** ** Refinement: the number of medoids *)

Lemma set_delete_absent (x : Z) (s : list Z) : ~ In x s -> set_delete x s = s.
Proof.
  intros H. unfold set_delete. induction s as [|a s IH]; simpl; [reflexivity|].
  destruct (a =? x) eqn:E.
  - apply Z.eqb_eq in E. subst. exfalso. apply H. left; reflexivity.
  - simpl. rewrite IH; [reflexivity|]. intros Hx. apply H. right; exact Hx.
Qed.

Lemma set_delete_length (x : Z) (s : list Z) :
  NoDup s -> (length s <= S (length (set_delete x s)))%nat.
Proof.
  induction 1 as [|a s Ha Hs IH]; simpl; [lia|].
  destruct (a =? x) eqn:E; simpl.
  - apply Z.eqb_eq in E. subst a.
    change (filter (fun y => negb (y =? x)) s) with (set_delete x s).
    rewrite (set_delete_absent x s Ha). lia.
  - change (filter (fun y => negb (y =? x)) s) with (set_delete x s). lia.
Qed.

Lemma swap_candidate_length (medoid nonMedoid : Z) (ms : list Z) :
  NoDup ms -> ~ In nonMedoid ms ->
  (length ms <= length (set_add nonMedoid (set_delete medoid ms)))%nat.
Proof.
  intros Hnd Hx. rewrite set_add_fresh.
  - rewrite length_app. simpl. pose proof (set_delete_length medoid ms Hnd). lia.
  - intros H. apply set_delete_In in H. tauto.
Qed.

Lemma swap_body_same_range (fuel : nat) (medoid nonMedoid : Z) (st st' : RunState) :
  swap_body fuel medoid st nonMedoid = Ok st' ->
  nRange (this_ st') = nRange (this_ st).
Proof.
  unfold swap_body. cbv zeta. intros H.
  apply bind_Ok in H. destruct H as (r & _ & H).
  destruct (num_ltb _ _); inversion H; subst; reflexivity.
Qed.

(** While the inner loop runs over the non-medoids it listed at its start,
    the current medoids are among the medoids it started from and the
    non-medoids already tried: each later candidate adds a new point. *)
Lemma inner_loop_grows (fuel : nat) (medoid : Z) (start : list Z) :
  forall (todo tried : list Z) (st st' : RunState),
    NoDup (tried ++ todo) -> (forall y, In y todo -> ~ In y start) ->
    NoDup (medoids (this_ st)) ->
    (forall y, In y (medoids (this_ st)) -> In y start \/ In y tried) ->
    forEach todo (swap_body fuel medoid) st = Ok st' ->
    nRange (this_ st') = nRange (this_ st) /\
    NoDup (medoids (this_ st')) /\
    (length (medoids (this_ st)) <= length (medoids (this_ st')))%nat.
Proof.
  induction todo as [|x todo IH]; intros tried st st' Hnd Hout Hms Hsub H;
    simpl in H.
  - inversion H; subst. auto.
  - apply bind_Ok in H. destruct H as (st1 & E1 & H).
    assert (Hx : ~ In x (medoids (this_ st))).
    { intros Hin. destruct (Hsub x Hin) as [Hs | Ht].
      - exact (Hout x (or_introl eq_refl) Hs).
      - apply NoDup_remove_2 in Hnd. apply Hnd. apply in_app_iff. left. exact Ht. }
    pose proof (swap_body_same_range _ _ _ _ _ E1) as Hr1.
    assert (H1 : NoDup (medoids (this_ st1)) /\
                 (length (medoids (this_ st)) <= length (medoids (this_ st1)))%nat /\
                 (forall y, In y (medoids (this_ st1)) ->
                            In y start \/ In y (tried ++ [x]))).
    { destruct (swap_body_cost _ _ _ _ _ E1) as [-> | (_ & Em & _)].
      - split; [exact Hms | split; [lia|]].
        intros y Hy. destruct (Hsub y Hy); [left | right; apply in_app_iff; left];
          assumption.
      - rewrite Em. split; [apply set_add_NoDup, set_delete_NoDup, Hms|].
        split; [apply swap_candidate_length; assumption|].
        intros y Hy. apply set_add_In in Hy. destruct Hy as [-> | Hy].
        + right. apply in_app_iff. right. left. reflexivity.
        + apply set_delete_In in Hy. destruct Hy as [Hy _].
          destruct (Hsub y Hy); [left | right; apply in_app_iff; left]; assumption. }
    destruct H1 as (Hnd1 & Hlen1 & Hsub1).
    destruct (IH (tried ++ [x]) st1 st') as (Hr & Hnd' & Hlen'); auto.
    + rewrite <- app_assoc. exact Hnd.
    + intros y Hy. apply Hout. right. exact Hy.
    + split; [congruence | split; [exact Hnd' | lia]].
Qed.

Lemma run_pass_grows (fuel : nat) (points : list Z) (st st' : RunState) :
  NoDup points -> run_pass fuel st = Ok st' ->
  nRange (this_ st) = points -> NoDup (medoids (this_ st)) ->
  nRange (this_ st') = points /\ NoDup (medoids (this_ st')) /\
  (length (medoids (this_ st)) <= length (medoids (this_ st')))%nat.
Proof.
  intros Hpoints. unfold run_pass.
  apply (forEach_partial
           (fun s s' =>
              nRange (this_ s) = points -> NoDup (medoids (this_ s)) ->
              nRange (this_ s') = points /\ NoDup (medoids (this_ s')) /\
              (length (medoids (this_ s)) <= length (medoids (this_ s')))%nat)).
  - auto.
  - intros s1 s2 s3 H12 H23 Hr Hnd.
    destruct (H12 Hr Hnd) as (Hr2 & Hnd2 & Hl2).
    destruct (H23 Hr2 Hnd2) as (Hr3 & Hnd3 & Hl3).
    split; [exact Hr3 | split; [exact Hnd3 | lia]].
  - intros s medoid s' E Hr Hnd. unfold medoid_body in E.
    destruct (inner_loop_grows fuel medoid (medoids (this_ s))
                (getNonMedoids (this_ s) (medoids (this_ s))) [] s s')
      as (Hr' & Hnd' & Hl'); auto.
    + simpl. unfold getNonMedoids. apply NoDup_filter. rewrite Hr. exact Hpoints.
    + intros y Hy. apply getNonMedoids_In in Hy. tauto.
    + split; [congruence | auto].
Qed.

Lemma run_while_grows (fuel : nat) (points : list Z) (maxIterations : Z)
  (tolerance : Q) :
  NoDup points ->
  forall (passes : nat) (st st' : RunState) (iteration iteration' : Z),
    run_while passes fuel maxIterations tolerance st iteration
    = Ok (st', iteration') ->
    nRange (this_ st) = points -> NoDup (medoids (this_ st)) ->
    (length (medoids (this_ st)) <= length (medoids (this_ st')))%nat.
Proof.
  intros Hpoints.
  induction passes as [|passes IH]; intros st st' it it' H Hr Hnd;
    cbn [run_while] in H;
    destruct (num_ltb (Fin tolerance) (costChange st) && (it <? maxIterations));
    try discriminate.
  - inversion H; subst. lia.
  - apply bind_Ok in H. destruct H as (st1 & E1 & H).
    destruct (run_pass_grows fuel points _ _ Hpoints E1 Hr Hnd)
      as (Hr1 & Hnd1 & Hl1).
    specialize (IH _ _ _ _ H Hr1 Hnd1). simpl in Hl1. lia.
  - inversion H; subst. lia.
Qed.

(** X15: on a freshly constructed engine (n-by-n matrix, [0 < k]), the
    medoids [run] ends with are at least [k] and at most [n]: a pass never
    lowers their number, although it may raise it. *)
Theorem run_keeps_at_least_k_medoids (dm : list (list Q)) (k : Z) (sp ep : Q)
  (this : KMedoids) (fuel : nat) (rand : nat -> nat) (maxIterations : Z)
  (tolerance : Q) :
  constructor dm k sp ep = inr this ->
  Forall (fun row => length row = length dm) dm ->
  0 < k ->
  (length dm <= fuel)%nat -> (Z.to_nat maxIterations <= fuel)%nat ->
  exists e,
    run fuel rand this maxIterations tolerance = Ok e /\
    k <= Z.of_nat (length (medoids e)) <= Z.of_nat (length dm).
Proof.
  intros Hc Hrows Hk Hfuel Hpasses.
  destruct (constructor_square dm k sp ep this Hc Hrows)
    as (Hsq & Ek & Hkn & H0 & Hlt & H1).
  assert (Hn : nPoints this = length dm).
  { unfold constructor in Hc.
    destruct (negb _) in Hc; [discriminate|].
    destruct (negb _) in Hc; [discriminate|].
    inversion Hc; reflexivity. }
  destruct (initializeMedoids_total this fuel rand (sq_range _ Hsq) H0 Hlt H1)
    as (m & Em & Hnd & Hin & Hlen); [lia | lia |].
  set (this1 := with_medoids this m).
  assert (Hsq1 : square_engine this1).
  { destruct Hsq as [A B C]. constructor; simpl; assumption. }
  assert (Hne : m <> []) by (intros ->; simpl in Hlen; lia).
  destruct (associate_total this1 fuel m Hsq1 Hne (conj Hnd Hin))
    as (ast & groups & _ & _ & _ & Ea); [simpl; lia|].
  match type of Ea with _ = Ok ?x => set (r0 := x) in * end.
  destruct (run_while_total fuel (nPoints this) (nRange this) maxIterations
              tolerance ltac:(lia) fuel
              {| this_ := this1; currentCost := configurationCost r0;
                 costChange := PInf |} 0)
    as (st & passes & Er & Hst & _).
  - unfold refining, medoid_set. simpl. auto 10.
  - lia.
  - exists (this_ st).
    assert (E : run_state fuel rand this maxIterations tolerance = Ok (st, passes)).
    { unfold run_state. rewrite Em. simpl. fold this1.
      change (medoids this1) with m. rewrite Ea. simpl. exact Er. }
    split; [unfold run; rewrite E; reflexivity|].
    pose proof (run_while_grows fuel (nRange this) maxIterations tolerance) as Hg.
    rewrite (sq_range _ Hsq) in Hg at 1.
    specialize (Hg (range_NoDup _) fuel _ st 0 passes Er eq_refl Hnd).
    simpl in Hg.
    destruct Hst as (_ & _ & Hr & _ & Hnd' & Hin').
    rewrite Hr, (sq_range _ Hsq) in Hin'.
    pose proof (range_bound _ _ Hnd' Hin'). lia.
Qed.

Lemma run_keeps_at_least_k_medoids_witness :
  exists e,
    run 10 zero_draws km5_wide 10 (1 # 100) = Ok e /\
    2 <= Z.of_nat (length (medoids e)) <= Z.of_nat (length line5).
Proof.
  apply (run_keeps_at_least_k_medoids line5 2 0 1 km5_wide 10 zero_draws 10
           (1 # 100)).
  - reflexivity.
  - repeat constructor.
  - lia.
  - simpl. lia.
  - simpl. lia.
Defined.

(** ** Construction with the default arguments *)

(** X16: with every optional argument left out ([nClusters = 2], window
    [0.90, 0.99]), construction succeeds exactly when the matrix has at
    least three rows. *)
Theorem new_KMedoids_defaults (dm : list (list Q)) :
  (exists this, new_KMedoids dm None None None = inr this) <->
  (3 <= length dm)%nat.
Proof.
  unfold new_KMedoids, constructor.
  change (negb (Qle_bool 0 (90 # 100) && Qltb (90 # 100) (99 # 100)
                && Qle_bool (99 # 100) 1)) with false. cbv iota.
  destruct (2 <? Z.of_nat (length dm)) eqn:E; simpl.
  - apply Z.ltb_lt in E. split; [intros _; lia | intros _; eexists; reflexivity].
  - apply Z.ltb_ge in E. split; [intros [this H]; discriminate | intros H; lia].
Qed.
